(** * DiscreteScheduler: noise schedule, reverse step and forward noising

    Shallow embedding of [src/diffusers/schedulers/scheduling_discrete.py].

    Numeric model.  The scheduler works on numpy arrays of floats.  Floats
    are idealised as real numbers ([R]): rounding, NaN and infinities are
    outside the model, and the properties below are the exact-arithmetic
    properties of the formulas the code evaluates.  Where a property
    turns on rounding (how [alphas_cumprod] decreases), the statements
    [self.alphas = 1.0 - self.betas] and [np.cumprod] are given a second
    time with round-to-nearest float32.  One-dimensional arrays
    (the coefficient tables) are lists; n-dimensional arrays (the samples)
    are a shape together with a row-major buffer.  Python integers are [Z].
    Python exceptions are values of [exn], threaded through the [result]
    monad in the order in which the source raises them. *)

From Stdlib Require Import Reals.Reals Lra Lia ZArith Bool String List.
Import ListNotations.

Open Scope R_scope.

(** ** Exceptions *)

Inductive exn : Type :=
| NotImplementedError
| TypeError
| IndexError
| ValueError.

Inductive result (A : Type) : Type :=
| Ok (a : A)
| Raise (e : exn).

Arguments Ok {A} a.
Arguments Raise {A} e.

Definition bind {A B : Type} (m : result A) (k : A -> result B) : result B :=
  match m with
  | Ok a => k a
  | Raise e => Raise e
  end.

Notation "x <- m ;; k" := (bind m (fun x => k))
  (at level 61, m at next level, right associativity).

(** ** numpy on one-dimensional arrays *)

Module Np.

(** [a[i]] for a Python integer [i]: negative indices count from the end,
    anything outside [-len, len) raises [IndexError]. *)
Definition getitem (a : list R) (i : Z) : result R :=
  let n := Z.of_nat (length a) in
  if (0 <=? i)%Z && (i <? n)%Z then Ok (nth (Z.to_nat i) a 0)
  else if (- n <=? i)%Z && (i <? 0)%Z then Ok (nth (Z.to_nat (i + n)) a 0)
  else Raise IndexError.

(** [a[idx]] for a sequence of integers [idx] (integer-array indexing). *)
Fixpoint take (a : list R) (idx : list Z) : result (list R) :=
  match idx with
  | [] => Ok []
  | i :: idx' =>
      x <- getitem a i ;;
      xs <- take a idx' ;;
      Ok (x :: xs)
  end.

(** [y[-1] = v] on a non-empty array. *)
Definition set_last (y : list R) (v : R) : list R :=
  removelast y ++ [v].

(** [np.linspace(start, stop, num)] with [endpoint=True]: [num] samples
    [start + i * step] where [step = (stop - start) / (num - 1)]; with more
    than one sample the last is overwritten by [stop]; with a single
    sample the step is undefined and the sample is [start]; a negative
    [num] raises [ValueError]. *)
Definition linspace (start stop : R) (num : Z) : result (list R) :=
  if (num <? 0)%Z then Raise ValueError
  else
    let div := (num - 1)%Z in
    let delta := stop - start in
    let y := map INR (seq 0 (Z.to_nat num)) in
    let y :=
      if (0 <? div)%Z then map (fun v => v * (delta / IZR div)) y
      else map (fun v => v * delta) y in
    let y := map (fun v => v + start) y in
    Ok (if (1 <? num)%Z then set_last y stop else y).

(** Running product used by [np.cumprod]: [out[0] = a[0]],
    [out[i] = out[i-1] * a[i]]. *)
Fixpoint accumulate (acc : R) (a : list R) : list R :=
  match a with
  | [] => []
  | x :: a' => (acc * x) :: accumulate (acc * x) a'
  end.

Definition cumprod (a : list R) : list R :=
  match a with
  | [] => []
  | x :: a' => x :: accumulate x a'
  end.

(** [np.zeros(n)]; a negative length raises [ValueError]. *)
Definition zeros (n : Z) : result (list R) :=
  if (n <? 0)%Z then Raise ValueError else Ok (repeat 0 (Z.to_nat n)).

Fixpoint map2 (f : R -> R -> R) (a b : list R) : list R :=
  match a, b with
  | x :: a', y :: b' => f x y :: map2 f a' b'
  | _, _ => []
  end.

(** Elementwise binary operation on two one-dimensional arrays with
    numpy's broadcasting: equal lengths pair up, a length-one operand is
    stretched, anything else raises [ValueError]. *)
Definition binop1 (f : R -> R -> R) (a b : list R) : result (list R) :=
  if (length a =? length b)%nat then Ok (map2 f a b)
  else match a, b with
       | [x], _ => Ok (map (f x) b)
       | _, [y] => Ok (map (fun x => f x y) a)
       | _, _ => Raise ValueError
       end.

End Np.

(** ** The scheduler object *)

Record DiscreteScheduler : Type := mkScheduler {
  num_timesteps : Z;
  clip_sample : bool;
  variance_type : option string;
  betas : list R;
  alphas : list R;
  alphas_cumprod : list R;
  variance : list R
}.

(** [DiscreteScheduler.__init__].  The [tensor_format] argument keeps its
    default ["np"], for which [set_format] leaves the tables as they are.
    [x ** 0.5] on a non-negative float is its square root. *)
Definition init (num_timesteps : Z) (beta_min beta_max : R)
    (beta_schedule : string) (clip_clean_sample : bool)
    (variance_type : option string) : result DiscreteScheduler :=
  betas <-
    (if (beta_schedule =? "linear")%string then
       b <- Np.linspace beta_min beta_max num_timesteps ;; Ok (Some b)
     else if (beta_schedule =? "scaled_linear")%string then
       b <- Np.linspace (sqrt beta_min) (sqrt beta_max) num_timesteps ;;
       Ok (Some (map (fun x => x ^ 2) b))
     else if (beta_schedule =? "trained")%string then Ok None
     else Raise NotImplementedError) ;;
  (* self.alphas = 1.0 - self.betas *)
  betas <- match betas with
           | Some b => Ok b
           | None => Raise TypeError
           end ;;
  let alphas := map (fun b => 1 - b) betas in
  let alphas_cumprod := Np.cumprod alphas in
  variance <-
    match variance_type with
    | Some v =>
        if (v =? "fixed_small")%string then
          let alphas_cumprod_prev := [1] ++ tl alphas_cumprod in
          q <- Np.binop1 Rdiv (map (fun x => 1 - x) alphas_cumprod_prev)
                 (map (fun x => 1 - x) alphas_cumprod) ;;
          p <- Np.binop1 Rmult q betas ;;
          Ok (map sqrt p)
        else if (v =? "fixed_large")%string then Ok (map sqrt betas)
        else Raise NotImplementedError
    | None => Np.zeros num_timesteps
    end ;;
  Ok (mkScheduler num_timesteps clip_clean_sample variance_type
        betas alphas alphas_cumprod variance).

(** ** numpy n-dimensional arrays

    An array is its shape and its elements in row-major order.  A
    well-formed array holds as many elements as its shape announces. *)

Record ndarray : Type := mkArray {
  shape : list nat;
  data : list R
}.

Definition size (s : list nat) : nat := fold_right Nat.mul 1%nat s.

Definition wf (a : ndarray) : Prop := length (data a) = size (shape a).

(** One axis of numpy's broadcasting rule: equal extents agree, an extent
    of one stretches to the other, anything else is incompatible. *)
Definition bdim (x y : nat) : option nat :=
  if (x =? y)%nat then Some x
  else if (x =? 1)%nat then Some y
  else if (y =? 1)%nat then Some x
  else None.

(** Broadcasting of two shapes given innermost axis first: axes pair up
    from the innermost one and the longer shape keeps its outer axes. *)
Fixpoint bshape_rev (a b : list nat) : option (list nat) :=
  match a, b with
  | [], _ => Some b
  | _, [] => Some a
  | x :: a', y :: b' =>
      match bdim x y, bshape_rev a' b' with
      | Some d, Some s => Some (d :: s)
      | _, _ => None
      end
  end.

Definition broadcast_shapes (a b : list nat) : option (list nat) :=
  option_map (@rev nat) (bshape_rev (rev a) (rev b)).

(** A shape of lower rank is read with leading axes of extent one. *)
Definition pad (n : nat) (s : list nat) : list nat :=
  repeat 1%nat (n - length s) ++ s.

(** The first [m] consecutive blocks of [sz] elements of a buffer. *)
Fixpoint chunks (sz m : nat) (d : list R) : list (list R) :=
  match m with
  | O => []
  | S m' => firstn sz d :: chunks sz m' (skipn sz d)
  end.

(** The buffer of an array of shape [src] viewed at the shape [tgt] it
    broadcasts to (both of the same rank): along an axis of equal extent
    each block is viewed in turn, along a stretched axis the single block
    is repeated. *)
Fixpoint expand (tgt src : list nat) (d : list R) : list R :=
  match tgt, src with
  | n :: tgt', m :: src' =>
      if (m =? n)%nat then flat_map (expand tgt' src') (chunks (size src') m d)
      else concat (repeat (expand tgt' src' d) n)
  | _, _ => d
  end.

Definition broadcast_to (s : list nat) (a : ndarray) : list R :=
  expand s (pad (length s) (shape a)) (data a).

(** Elementwise binary operation of two arrays; shapes that do not
    broadcast raise [ValueError]. *)
Definition binop (f : R -> R -> R) (a b : ndarray) : result ndarray :=
  match broadcast_shapes (shape a) (shape b) with
  | Some s => Ok (mkArray s (Np.map2 f (broadcast_to s a) (broadcast_to s b)))
  | None => Raise ValueError
  end.

(** Elementwise unary operation, and every operation between an array and
    a scalar. *)
Definition amap (g : R -> R) (a : ndarray) : ndarray :=
  mkArray (shape a) (map g (data a)).

Fixpoint shape_eqb (s1 s2 : list nat) : bool :=
  match s1, s2 with
  | [], [] => true
  | x :: s1', y :: s2' => (x =? y)%nat && shape_eqb s1' s2'
  | _, _ => false
  end.

(** [x += y]: the sum is stored into [x], so it must have the shape of
    [x]; a zero-dimensional [x] is a numpy scalar, for which [+=] rebinds
    the name to the sum. *)
Definition iadd (x y : ndarray) : result ndarray :=
  r <- binop Rplus x y ;;
  match shape x with
  | [] => Ok r
  | _ => if shape_eqb (shape r) (shape x) then Ok r else Raise ValueError
  end.

(** ** Helpers of [SchedulerMixin] *)

(** Modelled from the spec: [SchedulerMixin.clip] is defined in
    [scheduling_utils], not in this file.  The spec has it clamp every
    element to the closed interval [[lo, hi]]. *)
Definition clip (a : ndarray) (lo hi : R) : ndarray :=
  amap (fun x => Rmin (Rmax x lo) hi) a.

(** Modelled from the spec: [SchedulerMixin.match_shape] is defined in
    [scheduling_utils], not in this file.  The spec has it broadcast one
    value per batch element over the trailing dimensions of the array it
    is matched to: the values become a column of shape [(len, 1, ..., 1)]
    of the rank of that array. *)
Definition match_shape (values : list R) (broadcast_array : ndarray) : ndarray :=
  mkArray (length values :: repeat 1%nat (length (shape broadcast_array) - 1))
          values.

(** Modelled from the spec: [SchedulerMixin.sqrt] is defined in
    [scheduling_utils], not in this file; it is the elementwise square
    root, written [sqrt] on scalars and [asqrt] on arrays. *)
Definition asqrt (a : ndarray) : ndarray := amap sqrt a.

(** ** [DiscreteScheduler.step] *)

Definition step (self : DiscreteScheduler)
    (noise_prediction noisy_sample : ndarray) (t : Z)
    (noise : option ndarray) : result ndarray :=
  alpha <- Np.getitem (alphas self) t ;;
  beta <- Np.getitem (betas self) t ;;
  alpha_cumprod <- Np.getitem (alphas_cumprod self) t ;;
  alpha_cumprod_next <-
    (if (t >? 0)%Z then Np.getitem (alphas_cumprod self) (t - 1) else Ok 1) ;;
  d <- binop Rminus noisy_sample
         (amap (Rmult (sqrt (1 - alpha_cumprod))) noise_prediction) ;;
  let pred_clean := amap (fun x => x / sqrt alpha_cumprod) d in
  let pred_clean :=
    if clip_sample self then clip pred_clean (-1) 1 else pred_clean in
  let clean_sample_coeff :=
    (sqrt alpha_cumprod_next * beta) / (1 - alpha_cumprod) in
  let noisy_sample_coeff :=
    sqrt alpha * (1 - alpha_cumprod_next) / (1 - alpha_cumprod) in
  next_sample <- binop Rplus (amap (Rmult clean_sample_coeff) pred_clean)
                   (amap (Rmult noisy_sample_coeff) noisy_sample) ;;
  if (t >? 0)%Z then
    match noise with
    | Some noise =>
        v <- Np.getitem (variance self) t ;;
        iadd next_sample (amap (Rmult v) noise)
    | None => Ok next_sample
    end
  else Ok next_sample.

(** ** [DiscreteScheduler.add_noise] *)

Definition add_noise (self : DiscreteScheduler)
    (clean_samples noise : ndarray) (timesteps : list Z) : result ndarray :=
  ac <- Np.take (alphas_cumprod self) timesteps ;;
  let ac := match_shape ac clean_samples in
  x <- binop Rmult (asqrt ac) clean_samples ;;
  y <- binop Rmult (asqrt (amap (fun v => 1 - v) ac)) noise ;;
  binop Rplus x y.

(** ** Vocabulary of the statements *)

(** A coefficient strictly between 0 and 1. *)
Definition unit_open (x : R) : Prop := 0 < x < 1.

(** The schedules and variance types [__init__] implements. *)
Definition known_schedule (beta_schedule : string) : Prop :=
  beta_schedule = "linear"%string \/ beta_schedule = "scaled_linear"%string.

Definition known_variance (variance_type : option string) : Prop :=
  variance_type = None \/ variance_type = Some "fixed_small"%string \/
  variance_type = Some "fixed_large"%string.

(** The table the [fixed_small] branch evaluates to, from the betas. *)
Definition fixed_small_table (b : list R) : list R :=
  let ac := Np.cumprod (map (fun x => 1 - x) b) in
  map sqrt
    (Np.map2 Rmult
       (Np.map2 Rdiv (map (fun x => 1 - x) ([1] ++ tl ac))
          (map (fun x => 1 - x) ac)) b).

(** [c] is [x] clamped to the closed interval [[lo, hi]]. *)
Definition clamped (lo hi x c : R) : Prop :=
  lo <= c <= hi /\ (lo <= x <= hi -> c = x) /\
  (x < lo -> c = lo) /\ (hi < x -> c = hi).

(** One element of the sample [step] returns before the stochastic term,
    from the coefficients read at [t] and the matching elements [ej] of
    the noise prediction and [yj] of the noisy sample. *)
Definition step_entry (clip_flag : bool) (alpha beta ac acn ej yj : R) : R :=
  let raw := (yj - sqrt (1 - ac) * ej) / sqrt ac in
  let p := if clip_flag then Rmin (Rmax raw (-1)) 1 else raw in
  sqrt acn * beta / (1 - ac) * p + sqrt alpha * (1 - acn) / (1 - ac) * yj.

(** A list as the one-dimensional array it stands for. *)
Definition vector (a : list R) : ndarray := mkArray [length a] a.

(** ** Concrete schedulers

    The two-step linear schedule from 1/4 to 1/2 (all its coefficients are
    dyadic) and the one-step schedule. *)

Definition two_step (vt : option string) (v : list R) : DiscreteScheduler :=
  mkScheduler 2 true vt [1/4; 1/2] [3/4; 1/2] [3/4; 3/8] v.

Definition two_step_small : DiscreteScheduler :=
  two_step (Some "fixed_small"%string) [0; sqrt (1/2)].

Definition two_step_large : DiscreteScheduler :=
  two_step (Some "fixed_large"%string) [sqrt (1/4); sqrt (1/2)].

Definition two_step_plain : DiscreteScheduler := two_step None [0; 0].

Definition one_step_plain : DiscreteScheduler :=
  mkScheduler 1 true None [1/4] [3/4] [3/4] [0].

(** ** Concrete samples *)

Definition pred1 : ndarray := mkArray [1%nat] [1/2].
Definition sample1 : ndarray := mkArray [1%nat] [1/4].
Definition noise1 : ndarray := mkArray [1%nat] [1].

Definition clean2 : ndarray := mkArray [2%nat] [1/4; 1/2].
Definition noise2 : ndarray := mkArray [2%nat] [1; 1].

(** ** float32 evaluation of [alphas] and [alphas_cumprod]

    The tables are float32 arrays: [1.0 - self.betas] and every product
    of [np.cumprod] are rounded to the nearest float32.  A float32 is
    [m * 2^e] with [|m| < 2^24] and [-149 <= e <= 104] (normal and
    subnormal numbers).  Real numbers cannot be compared by computation,
    so rounding is a relation; which of two equally near values is taken
    is left open, and values beyond the largest float32 do not occur
    here. *)






(** The betas of the linear schedule from [2^-30] to [2^-29] in two
    steps; both are float32 values. *)
Definition tiny_betas : list R := [powerRZ 2 (-30); powerRZ 2 (-29)].

(** * Properties *)

(** ** Lists and the [result] monad *)

Lemma bind_ok {A B : Type} (m : result A) (k : A -> result B) (b : B) :
  bind m k = Ok b -> exists a, m = Ok a /\ k a = Ok b.
Proof.
  destruct m as [a | e]; simpl; intros H; [eauto | discriminate].
Qed.

Lemma nth_map_in {A B : Type} (g : A -> B) (l : list A) (i : nat) (d : B) (d' : A) :
  (i < length l)%nat -> nth i (map g l) d = g (nth i l d').
Proof.
  intros Hi. rewrite (nth_indep _ d (g d')) by (rewrite length_map; exact Hi).
  apply map_nth.
Qed.

Lemma map2_length (f : R -> R -> R) (a b : list R) :
  length (Np.map2 f a b) = Nat.min (length a) (length b).
Proof.
  revert b; induction a as [| x a IH]; intros [| y b]; simpl; auto.
Qed.

Lemma map2_nth (f : R -> R -> R) (a b : list R) (i : nat) :
  (i < length a)%nat -> (i < length b)%nat ->
  nth i (Np.map2 f a b) 0 = f (nth i a 0) (nth i b 0).
Proof.
  revert b i; induction a as [| x a IH]; intros [| y b] [| i]; simpl;
    intros Ha Hb; try lia; auto.
  apply IH; lia.
Qed.

(** ** [np.linspace] *)

Lemma linspace_ok (a b : R) (num : Z) :
  (0 <= num)%Z -> exists l, Np.linspace a b num = Ok l.
Proof.
  intros H. unfold Np.linspace.
  destruct (Z.ltb_spec num 0); [lia | eauto].
Qed.

Lemma linspace_length (a b : R) (num : Z) (l : list R) :
  Np.linspace a b num = Ok l -> length l = Z.to_nat num.
Proof.
  unfold Np.linspace.
  destruct (Z.ltb_spec num 0) as [| H0]; [discriminate |].
  intros H; injection H as <-.
  assert (Hlen : forall y : list R,
             length (map (fun v => v + a) y) = length y)
    by (intros; apply length_map).
  destruct (Z.ltb_spec 1 num) as [H1 | H1].
  - unfold Np.set_last. rewrite length_app, removelast_firstn_len, length_firstn.
    rewrite Hlen.
    destruct (Z.ltb_spec 0 (num - 1)); [| lia].
    rewrite !length_map, length_seq. simpl. lia.
  - rewrite Hlen. destruct (0 <? num - 1)%Z; rewrite !length_map, length_seq; lia.
Qed.

Lemma linspace_single (a b : R) : Np.linspace a b 1 = Ok [a].
Proof.
  unfold Np.linspace; simpl. do 2 f_equal. ring.
Qed.

Lemma linspace_nth (a b : R) (num : Z) (l : list R) (i : nat) :
  (2 <= num)%Z -> Np.linspace a b num = Ok l -> (i < Z.to_nat num)%nat ->
  nth i l 0 = a + INR i * ((b - a) / IZR (num - 1)).
Proof.
  intros Hnum Hl Hi. unfold Np.linspace in Hl.
  destruct (Z.ltb_spec num 0); [lia |].
  destruct (Z.ltb_spec 0 (num - 1)); [| lia].
  destruct (Z.ltb_spec 1 num); [| lia].
  injection Hl as <-.
  set (n := Z.to_nat num) in *.
  set (st := (b - a) / IZR (num - 1)).
  rewrite !map_map.
  set (g := fun k : nat => INR k * st + a).
  assert (Hy : length (map g (seq 0 n)) = n)
    by (rewrite length_map, length_seq; reflexivity).
  unfold Np.set_last. rewrite removelast_firstn_len, Hy.
  destruct (Nat.ltb_spec i (Nat.pred n)) as [Hlt | Hge].
  - rewrite app_nth1 by (rewrite length_firstn, Hy; lia).
    rewrite nth_firstn.
    destruct (Nat.ltb_spec i (Nat.pred n)); [| lia].
    rewrite (nth_map_in g _ _ _ 0%nat) by (rewrite length_seq; lia).
    rewrite seq_nth by lia. unfold g; simpl. ring.
  - assert (Hi' : i = Nat.pred n) by lia.
    rewrite app_nth2 by (rewrite length_firstn, Hy; lia).
    rewrite length_firstn, Hy.
    replace (i - Nat.min (Nat.pred n) n)%nat with 0%nat by lia. simpl.
    assert (HZ : IZR (num - 1) = INR i).
    { rewrite INR_IZR_INZ. f_equal. lia. }
    unfold st. rewrite HZ.
    assert (INR i <> 0) by (apply not_0_INR; lia).
    field. assumption.
Qed.

(** ** [np.cumprod] *)

Lemma accumulate_length (acc : R) (a : list R) :
  length (Np.accumulate acc a) = length a.
Proof.
  revert acc; induction a as [| x a IH]; intros acc; simpl; auto.
Qed.

Lemma cumprod_length (a : list R) : length (Np.cumprod a) = length a.
Proof.
  destruct a; simpl; [reflexivity |]. now rewrite accumulate_length.
Qed.

Lemma accumulate_step (acc : R) (a : list R) (i : nat) :
  (i < length a)%nat ->
  nth (S i) (acc :: Np.accumulate acc a) 0 =
  nth i (acc :: Np.accumulate acc a) 0 * nth i a 0.
Proof.
  revert acc i; induction a as [| x a IH]; intros acc i Hi; simpl in Hi; [lia |].
  destruct i as [| i]; [reflexivity |].
  change (nth (S i) (acc * x :: Np.accumulate (acc * x) a) 0 =
          nth i (acc * x :: Np.accumulate (acc * x) a) 0 * nth i a 0).
  apply IH. lia.
Qed.

Lemma cumprod_head (a : list R) : nth 0 (Np.cumprod a) 0 = nth 0 a 0.
Proof. destruct a; reflexivity. Qed.

Lemma cumprod_step (a : list R) (i : nat) :
  (S i < length a)%nat ->
  nth (S i) (Np.cumprod a) 0 = nth i (Np.cumprod a) 0 * nth (S i) a 0.
Proof.
  destruct a as [| x a]; simpl; intros Hi; [lia |].
  apply (accumulate_step x a i). lia.
Qed.

Lemma cumprod_unit_open (a : list R) (i : nat) :
  Forall unit_open a -> (i < length a)%nat ->
  unit_open (nth i (Np.cumprod a) 0).
Proof.
  intros Ha. induction i as [| i IH]; intros Hi.
  - rewrite cumprod_head. apply Forall_nth; assumption.
  - rewrite cumprod_step by assumption.
    assert (H1 : unit_open (nth i (Np.cumprod a) 0)) by (apply IH; lia).
    assert (H2 : unit_open (nth (S i) a 0)) by (apply Forall_nth; assumption).
    unfold unit_open in *. nra.
Qed.

Lemma complement_unit_open (b : list R) :
  Forall unit_open b -> Forall unit_open (map (fun x => 1 - x) b).
Proof.
  intros H. apply Forall_map. eapply Forall_impl; [| exact H].
  unfold unit_open. intros x Hx. lra.
Qed.

(** ** The constructor *)

Lemma binop1_same_length (f : R -> R -> R) (a b : list R) :
  length a = length b -> Np.binop1 f a b = Ok (Np.map2 f a b).
Proof.
  intros H. unfold Np.binop1. now rewrite H, Nat.eqb_refl.
Qed.

(** What a successful construction stores. *)
Lemma init_tables (N : Z) (bmin bmax : R) (sched : string) (clip_flag : bool)
    (vt : option string) (s : DiscreteScheduler) :
  init N bmin bmax sched clip_flag vt = Ok s ->
  num_timesteps s = N /\ clip_sample s = clip_flag /\ variance_type s = vt /\
  alphas s = map (fun b => 1 - b) (betas s) /\
  alphas_cumprod s = Np.cumprod (alphas s) /\
  length (betas s) = Z.to_nat N.
Proof.
  unfold init. intros H.
  apply bind_ok in H as (ob & Hob & H).
  apply bind_ok in H as (b & Hb & H).
  apply bind_ok in H as (v & Hv & H).
  injection H as <-; simpl. repeat split; try reflexivity.
  destruct ob as [b' |]; [injection Hb as -> | discriminate].
  destruct (sched =? "linear")%string.
  - apply bind_ok in Hob as (l & Hl & Hob). injection Hob as <-.
    now apply linspace_length in Hl.
  - destruct (sched =? "scaled_linear")%string.
    + apply bind_ok in Hob as (l & Hl & Hob). injection Hob as <-.
      rewrite length_map. now apply linspace_length in Hl.
    + destruct (sched =? "trained")%string; discriminate.
Qed.

Lemma init_linear_betas (N : Z) (bmin bmax : R) (clip_flag : bool)
    (vt : option string) (s : DiscreteScheduler) :
  init N bmin bmax "linear" clip_flag vt = Ok s ->
  Np.linspace bmin bmax N = Ok (betas s).
Proof.
  unfold init. intros H.
  apply bind_ok in H as (ob & Hob & H).
  apply bind_ok in H as (b & Hb & H).
  apply bind_ok in H as (v & Hv & H).
  injection H as <-; simpl.
  simpl in Hob. apply bind_ok in Hob as (l & Hl & Hob). injection Hob as <-.
  injection Hb as <-. exact Hl.
Qed.

(** The [fixed_small] branch never raises: its three arrays have one
    length, except for an empty schedule, where the one-element
    [alphas_cumprod_prev] broadcasts against the empty table. *)
Lemma fixed_small_branch (b : list R) :
  let ac := Np.cumprod (map (fun x => 1 - x) b) in
  (q <- Np.binop1 Rdiv (map (fun x => 1 - x) ([1] ++ tl ac))
          (map (fun x => 1 - x) ac) ;;
   p <- Np.binop1 Rmult q b ;;
   Ok (map sqrt p)) = Ok (fixed_small_table b).
Proof.
  intros ac. unfold fixed_small_table. fold ac.
  destruct b as [| b0 b]; [reflexivity |].
  assert (Hac : length ac = S (length b))
    by (unfold ac; rewrite cumprod_length, length_map; reflexivity).
  assert (Hprev : length ([1] ++ tl ac) = length ac)
    by (destruct ac; simpl in *; [discriminate | reflexivity]).
  rewrite binop1_same_length by (rewrite !length_map; exact Hprev).
  cbn [bind].
  rewrite binop1_same_length
    by (rewrite map2_length, !length_map, Hprev, Hac; simpl; lia).
  reflexivity.
Qed.

(** Construction succeeds for the two implemented schedules, every
    implemented variance type and every non-negative table length. *)
Lemma init_succeeds (N : Z) (bmin bmax : R) (sched : string) (clip_flag : bool)
    (vt : option string) :
  (0 <= N)%Z -> known_schedule sched -> known_variance vt ->
  exists s, init N bmin bmax sched clip_flag vt = Ok s.
Proof.
  intros HN Hs Hv. unfold init.
  assert (Hb : exists b,
    (if (sched =? "linear")%string
     then b <- Np.linspace bmin bmax N;; Ok (Some b)
     else if (sched =? "scaled_linear")%string
          then b <- Np.linspace (sqrt bmin) (sqrt bmax) N;;
               Ok (Some (map (fun x => x ^ 2) b))
          else if (sched =? "trained")%string then Ok None
               else Raise NotImplementedError) = Ok (Some b)).
  { destruct Hs as [-> | ->]; simpl.
    - destruct (linspace_ok bmin bmax N HN) as [l ->]. simpl; eauto.
    - destruct (linspace_ok (sqrt bmin) (sqrt bmax) N HN) as [l ->]. simpl; eauto. }
  destruct Hb as [b ->]. cbn [bind].
  destruct Hv as [-> | [-> | ->]].
  - unfold Np.zeros. destruct (Z.ltb_spec N 0); [lia |]. cbn [bind]; eauto.
  - rewrite String.eqb_refl, fixed_small_branch. cbn [bind]; eauto.
  - change ("fixed_large" =? "fixed_small")%string with false.
    rewrite String.eqb_refl. cbn [bind]; eauto.
Qed.

Lemma init_fixed_small_variance (N : Z) (bmin bmax : R) (sched : string)
    (clip_flag : bool) (s : DiscreteScheduler) :
  init N bmin bmax sched clip_flag (Some "fixed_small"%string) = Ok s ->
  variance s = fixed_small_table (betas s).
Proof.
  unfold init. intros H.
  apply bind_ok in H as (ob & Hob & H).
  apply bind_ok in H as (b & Hb & H).
  apply bind_ok in H as (v & Hv & H).
  injection H as <-. cbn [variance betas].
  rewrite String.eqb_refl, fixed_small_branch in Hv. now injection Hv.
Qed.

Lemma init_fixed_large_variance (N : Z) (bmin bmax : R) (sched : string)
    (clip_flag : bool) (s : DiscreteScheduler) :
  init N bmin bmax sched clip_flag (Some "fixed_large"%string) = Ok s ->
  variance s = map sqrt (betas s).
Proof.
  unfold init. intros H.
  apply bind_ok in H as (ob & Hob & H).
  apply bind_ok in H as (b & Hb & H).
  apply bind_ok in H as (v & Hv & H).
  injection H as <-. cbn [variance betas].
  change ("fixed_large" =? "fixed_small")%string with false in Hv.
  rewrite String.eqb_refl in Hv. now injection Hv.
Qed.

(** ** Construction of the concrete schedulers *)

Ltac list_eq :=
  repeat match goal with
         | |- _ :: _ = _ :: _ => apply f_equal2
         | |- [] = [] => reflexivity
         end.

Ltac tables_eq :=
  unfold init, Np.linspace, Np.set_last; simpl;
  do 2 f_equal; list_eq; try lra; try (apply f_equal; lra).

Lemma init_two_step_small :
  init 2 (1/4) (1/2) "linear" true (Some "fixed_small"%string) = Ok two_step_small.
Proof.
  unfold two_step_small, two_step. tables_eq.
  rewrite <- sqrt_0. f_equal. lra.
Qed.

Lemma init_two_step_large :
  init 2 (1/4) (1/2) "linear" true (Some "fixed_large"%string) = Ok two_step_large.
Proof. unfold two_step_large, two_step. tables_eq. Qed.

Lemma init_two_step_plain :
  init 2 (1/4) (1/2) "linear" true None = Ok two_step_plain.
Proof. unfold two_step_plain, two_step. tables_eq. Qed.

Lemma init_one_step_plain :
  init 1 (1/4) (1/2) "linear" true None = Ok one_step_plain.
Proof. unfold one_step_plain. tables_eq. Qed.

Lemma two_step_betas_unit_open : Forall unit_open [1/4; 1/2].
Proof. repeat constructor; unfold unit_open; lra. Qed.

(** ** The variance tables *)

Lemma prev_length (ac : list R) :
  ac <> [] -> length ([1] ++ tl ac) = length ac.
Proof. destruct ac; simpl; congruence. Qed.

Lemma prev_nth_succ (ac : list R) (i : nat) :
  nth (S i) ([1] ++ tl ac) 0 = nth (S i) ac 0.
Proof. destruct ac; [destruct i |]; reflexivity. Qed.

(** Entry [i] of the [fixed_small] table, as the source computes it. *)
Lemma fixed_small_table_nth (b : list R) (i : nat) :
  (i < length b)%nat ->
  let ac := Np.cumprod (map (fun x => 1 - x) b) in
  nth i (fixed_small_table b) 0 =
  sqrt ((1 - nth i ([1] ++ tl ac) 0) / (1 - nth i ac 0) * nth i b 0).
Proof.
  intros Hi ac. unfold fixed_small_table. fold ac.
  assert (Hac : length ac = length b)
    by (unfold ac; rewrite cumprod_length, length_map; reflexivity).
  assert (Hne : ac <> []) by (intros E; rewrite E in Hac; simpl in Hac; lia).
  pose proof (prev_length ac Hne) as Hprev.
  rewrite (nth_map_in sqrt _ _ _ 0)
    by (rewrite !map2_length, !length_map; lia).
  rewrite map2_nth by (rewrite ?map2_length, ?length_map; lia).
  rewrite map2_nth by (rewrite ?length_map; lia).
  rewrite !(nth_map_in (fun x => 1 - x) _ _ _ 0) by lia.
  reflexivity.
Qed.

(** From index 1 on, the quotient of the [fixed_small] branch cancels. *)
Lemma fixed_small_table_succ (b : list R) (i : nat) :
  (S i < length b)%nat ->
  nth (S i) (Np.cumprod (map (fun x => 1 - x) b)) 0 <> 1 ->
  nth (S i) (fixed_small_table b) 0 = sqrt (nth (S i) b 0).
Proof.
  intros Hi Hne. rewrite fixed_small_table_nth by assumption.
  rewrite prev_nth_succ. f_equal. field. lra.
Qed.

Lemma init_betas_indep (N : Z) (bmin bmax : R) (sched : string)
    (c1 c2 : bool) (vt1 vt2 : option string) (s1 s2 : DiscreteScheduler) :
  init N bmin bmax sched c1 vt1 = Ok s1 ->
  init N bmin bmax sched c2 vt2 = Ok s2 ->
  betas s1 = betas s2.
Proof.
  unfold init. intros H1 H2.
  apply bind_ok in H1 as (ob1 & Hob1 & H1).
  apply bind_ok in H1 as (b1 & Hb1 & H1).
  apply bind_ok in H1 as (v1 & Hv1 & H1).
  apply bind_ok in H2 as (ob2 & Hob2 & H2).
  apply bind_ok in H2 as (b2 & Hb2 & H2).
  apply bind_ok in H2 as (v2 & Hv2 & H2).
  injection H1 as <-. injection H2 as <-. simpl.
  rewrite Hob1 in Hob2. injection Hob2 as <-.
  rewrite Hb1 in Hb2. now injection Hb2.
Qed.

(** C10.  With [variance_type = "fixed_small"], betas in (0,1) and
    [alphas_cumprod[i] < 1], the table built by [__init__] has
    [variance[i] = sqrt(betas[i])] at every index [i >= 1], which is the
    entry of the [fixed_large] table built from the same betas: the
    source's [alphas_cumprod_prev] holds [alphas_cumprod[i]] at [i >= 1],
    so the quotient is 1. *)
Theorem fixed_small_equals_fixed_large_from_one
    (N : Z) (bmin bmax : R) (sched : string) (clip_flag : bool)
    (s s' : DiscreteScheduler) (i : nat) :
  init N bmin bmax sched clip_flag (Some "fixed_small"%string) = Ok s ->
  init N bmin bmax sched clip_flag (Some "fixed_large"%string) = Ok s' ->
  Forall unit_open (betas s) ->
  (1 <= i < length (betas s))%nat ->
  nth i (alphas_cumprod s) 0 < 1 ->
  nth i (variance s) 0 = sqrt (nth i (betas s) 0) /\
  nth i (variance s) 0 = nth i (variance s') 0.
Proof.
  intros Hs Hs' _ [Hi1 Hi2] Hac.
  pose proof (init_betas_indep _ _ _ _ _ _ _ _ _ _ Hs Hs') as Hb.
  destruct (init_tables _ _ _ _ _ _ _ Hs) as (_ & _ & _ & Ha & Hc & _).
  rewrite (init_fixed_small_variance _ _ _ _ _ _ Hs).
  rewrite (init_fixed_large_variance _ _ _ _ _ _ Hs'), <- Hb.
  destruct i as [| i]; [lia |].
  rewrite Hc, Ha in Hac.
  rewrite fixed_small_table_succ by (assumption || lra).
  split; [reflexivity |].
  now rewrite (nth_map_in sqrt _ _ _ 0) by assumption.
Qed.

Lemma fixed_small_equals_fixed_large_from_one_witness :
  nth 1 (variance two_step_small) 0 = sqrt (nth 1 (betas two_step_small) 0) /\
  nth 1 (variance two_step_small) 0 = nth 1 (variance two_step_large) 0.
Proof.
  apply (fixed_small_equals_fixed_large_from_one 2 (1/4) (1/2) "linear" true).
  - exact init_two_step_small.
  - exact init_two_step_large.
  - exact two_step_betas_unit_open.
  - simpl. lia.
  - simpl. lra.
Defined.

(** C1 (the code at a failing input).  On the two-step schedule the
    [fixed_small] table holds [sqrt(1/2)] at index 1, where the formula
    with [alphasCumprodPrev[1] = alphasCumprod[0]] gives [sqrt(1/5)];
    entry 0 is 0 as stated. *)
Theorem fixed_small_reads_current_cumprod :
  init 2 (1/4) (1/2) "linear" true (Some "fixed_small"%string) = Ok two_step_small /\
  nth 0 (variance two_step_small) 0 = 0 /\
  nth 1 (variance two_step_small) 0 = sqrt (1/2) /\
  sqrt ((1 - nth 0 (alphas_cumprod two_step_small) 0) /
        (1 - nth 1 (alphas_cumprod two_step_small) 0) *
        nth 1 (betas two_step_small) 0) = sqrt (1/5) /\
  sqrt (1/2) <> sqrt (1/5).
Proof.
  split; [exact init_two_step_small |].
  split; [reflexivity |]. split; [reflexivity |]. split.
  - simpl. f_equal. lra.
  - intros E. apply sqrt_inj in E; lra.
Qed.

(** C2 (the code at the failing inputs).  With
    [beta_schedule = "trained"] the constructor never returns: it stops
    at [1.0 - self.betas] with a [TypeError], whatever the other
    arguments are. *)
Theorem trained_schedule_raises_type_error
    (N : Z) (bmin bmax : R) (clip_flag : bool) (vt : option string) :
  init N bmin bmax "trained" clip_flag vt = Raise TypeError.
Proof. reflexivity. Qed.

(** ** The linear schedule *)

(** C5 (the claim fails at [num_timesteps = 1]).  A single-step linear
    schedule holds [beta_min] alone, so its last beta is not
    [beta_max]. *)
Lemma linear_single_step_ends_at_beta_min :
  init 1 (1/4) (1/2) "linear" true None = Ok one_step_plain /\
  betas one_step_plain = [1/4] /\
  nth (Z.to_nat 1 - 1) (betas one_step_plain) 0 <> 1/2.
Proof.
  split; [exact init_one_step_plain |]. split; [reflexivity |].
  simpl. lra.
Qed.

(** C5 (amended).  For a linear schedule with [num_timesteps >= 1] and
    [0 < beta_min < beta_max < 1], construction succeeds and the betas are
    [num_timesteps] values starting at [beta_min], with the constant
    increment [(beta_max - beta_min) / (num_timesteps - 1)] between
    neighbours, non-decreasing, ending at [beta_max] when
    [num_timesteps >= 2] and at [beta_min] when [num_timesteps = 1]. *)
Theorem linear_betas_evenly_spaced
    (N : Z) (bmin bmax : R) (clip_flag : bool) (vt : option string) :
  (1 <= N)%Z -> 0 < bmin -> bmin < bmax -> bmax < 1 -> known_variance vt ->
  exists s,
    init N bmin bmax "linear" clip_flag vt = Ok s /\
    length (betas s) = Z.to_nat N /\
    nth 0 (betas s) 0 = bmin /\
    ((2 <= N)%Z -> nth (Z.to_nat N - 1) (betas s) 0 = bmax) /\
    (N = 1%Z -> nth (Z.to_nat N - 1) (betas s) 0 = bmin) /\
    (forall i, (S i < Z.to_nat N)%nat ->
       nth (S i) (betas s) 0 - nth i (betas s) 0 = (bmax - bmin) / IZR (N - 1)) /\
    (forall i, (S i < Z.to_nat N)%nat ->
       nth i (betas s) 0 <= nth (S i) (betas s) 0).
Proof.
  intros HN H0 Hlt H1 Hvt.
  destruct (init_succeeds N bmin bmax "linear" clip_flag vt) as [s Hs];
    [lia | left; reflexivity | assumption |].
  exists s. split; [exact Hs |].
  pose proof (init_linear_betas _ _ _ _ _ _ Hs) as Hl.
  pose proof (linspace_length _ _ _ _ Hl) as Hlen.
  split; [exact Hlen |].
  assert (Hone : N = 1%Z -> nth 0 (betas s) 0 = bmin).
  { intros ->. rewrite linspace_single in Hl. injection Hl as <-. reflexivity. }
  assert (Hnth : (2 <= N)%Z -> forall i, (i < Z.to_nat N)%nat ->
            nth i (betas s) 0 = bmin + INR i * ((bmax - bmin) / IZR (N - 1))).
  { intros H2 i Hi. now apply linspace_nth. }
  assert (Hstep : (2 <= N)%Z -> 0 < (bmax - bmin) / IZR (N - 1)).
  { intros H2. apply Rdiv_lt_0_compat; [lra |]. apply IZR_lt. lia. }
  repeat split.
  - destruct (Z.eq_dec N 1) as [E | E]; [now apply Hone |].
    rewrite Hnth by lia. simpl. ring.
  - intros H2. rewrite Hnth by lia.
    replace (INR (Z.to_nat N - 1)) with (IZR (N - 1))
      by (rewrite INR_IZR_INZ; f_equal; lia).
    field. apply not_0_IZR. lia.
  - intros E. rewrite <- (Hone E). subst N. reflexivity.
  - intros i Hi. rewrite !Hnth by lia. rewrite S_INR. ring.
  - intros i Hi. rewrite !Hnth by lia. rewrite S_INR.
    pose proof (Hstep ltac:(lia)). lra.
Qed.

Lemma linear_betas_evenly_spaced_witness :
  exists s,
    init 2 (1/4) (1/2) "linear" true None = Ok s /\
    length (betas s) = Z.to_nat 2 /\
    nth 0 (betas s) 0 = 1/4 /\
    ((2 <= 2)%Z -> nth (Z.to_nat 2 - 1) (betas s) 0 = 1/2) /\
    (2%Z = 1%Z -> nth (Z.to_nat 2 - 1) (betas s) 0 = 1/4) /\
    (forall i, (S i < Z.to_nat 2)%nat ->
       nth (S i) (betas s) 0 - nth i (betas s) 0 = (1/2 - 1/4) / IZR (2 - 1)) /\
    (forall i, (S i < Z.to_nat 2)%nat ->
       nth i (betas s) 0 <= nth (S i) (betas s) 0).
Proof.
  apply (linear_betas_evenly_spaced 2 (1/4) (1/2) true None).
  - lia.
  - lra.
  - lra.
  - lra.
  - left; reflexivity.
Defined.

(** ** Alphas and their cumulative product *)

(** In exact arithmetic, that is for the tables of [init], whose entries
    are real numbers: with betas in (0,1), [alphas[i] = 1 - betas[i]],
    [alphas_cumprod[0] = alphas[0]],
    [alphas_cumprod[i] = alphas_cumprod[i-1] * alphas[i]] for [i >= 1],
    and the cumulative product is strictly decreasing.  The float32
    tables are treated below. *)
Lemma exact_alphas_cumprod_recurrence_and_decrease
    (N : Z) (bmin bmax : R) (sched : string) (clip_flag : bool)
    (vt : option string) (s : DiscreteScheduler) :
  init N bmin bmax sched clip_flag vt = Ok s ->
  Forall unit_open (betas s) ->
  length (alphas s) = Z.to_nat N /\
  length (alphas_cumprod s) = Z.to_nat N /\
  (forall i, (i < Z.to_nat N)%nat ->
     nth i (alphas s) 0 = 1 - nth i (betas s) 0) /\
  nth 0 (alphas_cumprod s) 0 = nth 0 (alphas s) 0 /\
  (forall i, (1 <= i < Z.to_nat N)%nat ->
     nth i (alphas_cumprod s) 0 =
     nth (i - 1) (alphas_cumprod s) 0 * nth i (alphas s) 0) /\
  (forall i, (1 <= i < Z.to_nat N)%nat ->
     nth i (alphas_cumprod s) 0 <= nth (i - 1) (alphas_cumprod s) 0) /\
  (forall i, (1 <= i < Z.to_nat N)%nat ->
     nth i (alphas_cumprod s) 0 < nth (i - 1) (alphas_cumprod s) 0).
Proof.
  intros Hs Hb.
  destruct (init_tables _ _ _ _ _ _ _ Hs) as (_ & _ & _ & Ha & Hc & Hlen).
  assert (Hla : length (alphas s) = Z.to_nat N)
    by (rewrite Ha, length_map; exact Hlen).
  assert (Hua : Forall unit_open (alphas s))
    by (rewrite Ha; apply complement_unit_open; exact Hb).
  assert (Hrec : forall i, (1 <= i < Z.to_nat N)%nat ->
            nth i (alphas_cumprod s) 0 =
            nth (i - 1) (alphas_cumprod s) 0 * nth i (alphas s) 0).
  { intros [| i] Hi; [lia |]. rewrite Hc.
    replace (S i - 1)%nat with i by lia. apply cumprod_step. lia. }
  assert (Hdec : forall i, (1 <= i < Z.to_nat N)%nat ->
            nth i (alphas_cumprod s) 0 < nth (i - 1) (alphas_cumprod s) 0).
  { intros i Hi. rewrite (Hrec i Hi).
    assert (H1 : unit_open (nth (i - 1) (alphas_cumprod s) 0))
      by (rewrite Hc; apply cumprod_unit_open; [assumption | lia]).
    assert (H2 : unit_open (nth i (alphas s) 0))
      by (apply Forall_nth; [assumption | lia]).
    unfold unit_open in *. nra. }
  split; [exact Hla |].
  split; [rewrite Hc, cumprod_length; exact Hla |].
  split.
  { intros i Hi. rewrite Ha.
    apply (nth_map_in (fun b => 1 - b) _ _ _ 0). lia. }
  split; [rewrite Hc; apply cumprod_head |].
  split; [exact Hrec |].
  split; [| exact Hdec].
  intros i Hi. apply Rlt_le. now apply Hdec.
Qed.


(** ** float32 rounding *)











(** ** The float32 tables *)










Lemma tiny_betas_values :
  tiny_betas = [/ 1073741824; / 536870912].
Proof. unfold tiny_betas. simpl. list_eq; lra. Qed.







(** ** Indexing *)

Lemma getitem_in_range (a : list R) (i : Z) :
  (0 <= i < Z.of_nat (length a))%Z ->
  Np.getitem a i = Ok (nth (Z.to_nat i) a 0).
Proof.
  intros [H0 H1]. unfold Np.getitem.
  destruct (Z.leb_spec 0 i); [| lia].
  destruct (Z.ltb_spec i (Z.of_nat (length a))); [| lia]. reflexivity.
Qed.

Lemma getitem_from_end (a : list R) (i : Z) :
  (- Z.of_nat (length a) <= i < 0)%Z ->
  Np.getitem a i = Ok (nth (Z.to_nat (i + Z.of_nat (length a))) a 0).
Proof.
  intros [H0 H1]. unfold Np.getitem.
  destruct (Z.leb_spec 0 i); [lia |]. simpl.
  destruct (Z.leb_spec (- Z.of_nat (length a)) i); [| lia].
  destruct (Z.ltb_spec i 0); [| lia]. reflexivity.
Qed.

Lemma getitem_outside (a : list R) (i : Z) :
  (Z.of_nat (length a) <= i \/ i < - Z.of_nat (length a))%Z ->
  Np.getitem a i = Raise IndexError.
Proof.
  intros H. unfold Np.getitem.
  destruct (Z.leb_spec 0 i), (Z.ltb_spec i (Z.of_nat (length a))),
    (Z.leb_spec (- Z.of_nat (length a)) i), (Z.ltb_spec i 0);
    simpl; try reflexivity; lia.
Qed.

Lemma getitem_accepts (a : list R) (i : Z) :
  (- Z.of_nat (length a) <= i < Z.of_nat (length a))%Z ->
  exists x, Np.getitem a i = Ok x.
Proof.
  intros H. destruct (Z.le_gt_cases 0 i).
  - rewrite getitem_in_range by lia. eauto.
  - rewrite getitem_from_end by lia. eauto.
Qed.

(** ** Broadcasting *)

Lemma bdim_refl (x : nat) : bdim x x = Some x.
Proof. unfold bdim. now rewrite Nat.eqb_refl. Qed.

Lemma bdim_refl' (x y : nat) : x = y -> bdim x y = Some x.
Proof. intros <-. apply bdim_refl. Qed.

Lemma bshape_rev_refl (l : list nat) : bshape_rev l l = Some l.
Proof.
  induction l as [| x l IH]; simpl; [reflexivity |].
  now rewrite bdim_refl, IH.
Qed.

Lemma broadcast_shapes_refl (s : list nat) : broadcast_shapes s s = Some s.
Proof.
  unfold broadcast_shapes. rewrite bshape_rev_refl. simpl.
  now rewrite rev_involutive.
Qed.

Lemma pad_full (s : list nat) : pad (length s) s = s.
Proof. unfold pad. now rewrite Nat.sub_diag. Qed.

Lemma chunks_concat (sz m : nat) (d : list R) :
  length d = (m * sz)%nat -> concat (chunks sz m d) = d.
Proof.
  revert d; induction m as [| m IH]; intros d Hd; simpl in *.
  - destruct d; [reflexivity | discriminate].
  - rewrite IH by (rewrite length_skipn; lia). apply firstn_skipn.
Qed.

Lemma chunks_lengths (sz m : nat) (d : list R) :
  length d = (m * sz)%nat ->
  Forall (fun c => length c = sz) (chunks sz m d).
Proof.
  revert d; induction m as [| m IH]; intros d Hd; simpl in *; constructor.
  - rewrite length_firstn. lia.
  - apply IH. rewrite length_skipn. lia.
Qed.

Lemma flat_map_fixed (f : list R -> list R) (l : list (list R)) :
  Forall (fun c => f c = c) l -> flat_map f l = concat l.
Proof.
  induction 1 as [| c l Hc _ IH]; simpl; [reflexivity |].
  now rewrite Hc, IH.
Qed.

(** An array viewed at its own shape is its buffer. *)
Lemma expand_same (s : list nat) (d : list R) :
  length d = size s -> expand s s d = d.
Proof.
  revert d; induction s as [| n s IH]; intros d Hd; simpl; [reflexivity |].
  rewrite Nat.eqb_refl. simpl in Hd.
  rewrite flat_map_fixed; [now apply chunks_concat |].
  eapply Forall_impl; [| apply chunks_lengths; exact Hd].
  intros c Hc. now apply IH.
Qed.

Lemma broadcast_to_own_shape (a : ndarray) :
  wf a -> broadcast_to (shape a) a = data a.
Proof.
  intros Ha. unfold broadcast_to. rewrite pad_full. now apply expand_same.
Qed.

(** Arrays of one shape combine element by element. *)
Lemma binop_same_shape (f : R -> R -> R) (a b : ndarray) :
  wf a -> wf b -> shape a = shape b ->
  binop f a b = Ok (mkArray (shape a) (Np.map2 f (data a) (data b))).
Proof.
  intros Ha Hb Hs. unfold binop. rewrite <- Hs, broadcast_shapes_refl.
  rewrite broadcast_to_own_shape by assumption.
  rewrite Hs at 2. rewrite broadcast_to_own_shape by assumption.
  reflexivity.
Qed.

Lemma amap_wf (g : R -> R) (a : ndarray) : wf a -> wf (amap g a).
Proof. unfold wf, amap; simpl. now rewrite length_map. Qed.

Lemma map2_wf (f : R -> R -> R) (a b : ndarray) :
  wf a -> wf b -> shape a = shape b ->
  wf (mkArray (shape a) (Np.map2 f (data a) (data b))).
Proof.
  unfold wf; simpl. intros Ha Hb Hs. rewrite map2_length, Ha, Hb, Hs. lia.
Qed.

Lemma shape_eqb_refl (s : list nat) : shape_eqb s s = true.
Proof.
  induction s as [| x s IH]; simpl; [reflexivity |].
  now rewrite Nat.eqb_refl, IH.
Qed.

Lemma iadd_same_shape (a b : ndarray) :
  wf a -> wf b -> shape a = shape b ->
  iadd a b = Ok (mkArray (shape a) (Np.map2 Rplus (data a) (data b))).
Proof.
  intros Ha Hb Hs. unfold iadd. rewrite binop_same_shape by assumption.
  simpl. rewrite shape_eqb_refl. now destruct (shape a).
Qed.

(** ** The reverse step *)

Lemma clip_clamps (x : R) : clamped (-1) 1 x (Rmin (Rmax x (-1)) 1).
Proof.
  unfold clamped, Rmin, Rmax.
  destruct (Rle_dec x (-1)); destruct (Rle_dec _ 1); repeat split; intros; lra.
Qed.

Section Step.

Variables (self : DiscreteScheduler) (e y : ndarray) (t : Z).
Variables (alpha beta ac acn : R).

Hypothesis Halpha : Np.getitem (alphas self) t = Ok alpha.
Hypothesis Hbeta : Np.getitem (betas self) t = Ok beta.
Hypothesis Hac : Np.getitem (alphas_cumprod self) t = Ok ac.
Hypothesis Hacn :
  (if (t >? 0)%Z then Np.getitem (alphas_cumprod self) (t - 1) else Ok 1) = Ok acn.
Hypothesis Hwe : wf e.
Hypothesis Hwy : wf y.
Hypothesis Hshape : shape e = shape y.

(** Once the four coefficients are read, same-shaped operands go
    through the arithmetic of [step] element by element. *)
Lemma step_before_noise (noise : option ndarray) :
  exists base,
    wf base /\ shape base = shape y /\
    (forall j, (j < size (shape y))%nat ->
       nth j (data base) 0 =
       step_entry (clip_sample self) alpha beta ac acn
         (nth j (data e) 0) (nth j (data y) 0)) /\
    step self e y t noise =
    if (t >? 0)%Z then
      match noise with
      | Some n => v <- Np.getitem (variance self) t ;;
                  iadd base (amap (Rmult v) n)
      | None => Ok base
      end
    else Ok base.
Proof.
  unfold step. rewrite Halpha, Hbeta, Hac, Hacn. cbn [bind].
  rewrite binop_same_shape; [| assumption | now apply amap_wf | now symmetry].
  cbn [bind].
  set (d := mkArray (shape y)
              (Np.map2 Rminus (data y)
                 (data (amap (Rmult (sqrt (1 - ac))) e)))).
  assert (Hd : wf d) by (apply map2_wf; [| apply amap_wf | symmetry]; assumption).
  set (pc := if clip_sample self
             then clip (amap (fun x => x / sqrt ac) d) (-1) 1
             else amap (fun x => x / sqrt ac) d).
  assert (Hpc : wf pc /\ shape pc = shape y).
  { unfold pc, clip. destruct (clip_sample self); split;
      try reflexivity; repeat apply amap_wf; exact Hd. }
  destruct Hpc as [Hpcw Hpcs].
  rewrite binop_same_shape;
    [| now apply amap_wf | now apply amap_wf | exact Hpcs].
  cbn [bind].
  eexists. split; [| split; [| split; [| reflexivity]]].
  - apply map2_wf; [now apply amap_wf | now apply amap_wf | exact Hpcs].
  - exact Hpcs.
  - intros j Hj. cbn [data amap shape].
    assert (Hly : length (data y) = size (shape y)) by exact Hwy.
    assert (Hle : length (data e) = size (shape y)) by (rewrite <- Hshape; exact Hwe).
    assert (Hld : length (data d) = size (shape y)) by exact Hd.
    assert (Hlp : length (data pc) = size (shape y)) by (rewrite <- Hpcs; exact Hpcw).
    rewrite map2_nth by (rewrite length_map; lia).
    rewrite !(nth_map_in (Rmult _) _ _ _ 0) by lia.
    unfold step_entry. f_equal. f_equal.
    assert (Hraw : nth j (data (amap (fun x => x / sqrt ac) d)) 0 =
                   (nth j (data y) 0 - sqrt (1 - ac) * nth j (data e) 0) / sqrt ac).
    { cbn [data amap]. rewrite (nth_map_in (fun x => x / sqrt ac) _ _ _ 0) by lia.
      unfold d; cbn [data amap]. rewrite map2_nth by (rewrite ?length_map; lia).
      now rewrite (nth_map_in (Rmult _) _ _ _ 0) by lia. }
    unfold pc, clip. destruct (clip_sample self); [| exact Hraw].
    cbn [data amap].
    rewrite (nth_map_in (fun x => Rmin (Rmax x (-1)) 1) _ _ _ 0)
      by (cbn [data amap]; rewrite length_map; lia).
    now rewrite <- Hraw.
Qed.

End Step.

Lemma fixed_small_table_length (b : list R) :
  length (fixed_small_table b) = length b.
Proof.
  unfold fixed_small_table. rewrite length_map, !map2_length, !length_map.
  rewrite cumprod_length, length_map.
  destruct b; simpl; [reflexivity |].
  rewrite accumulate_length, length_map. lia.
Qed.

Lemma init_variance_length (N : Z) (bmin bmax : R) (sched : string)
    (clip_flag : bool) (vt : option string) (s : DiscreteScheduler) :
  init N bmin bmax sched clip_flag vt = Ok s ->
  length (variance s) = Z.to_nat N.
Proof.
  intros Hs.
  destruct (init_tables _ _ _ _ _ _ _ Hs) as (_ & _ & _ & _ & _ & Hlen).
  revert Hs. unfold init. intros H.
  apply bind_ok in H as (ob & Hob & H).
  apply bind_ok in H as (b & Hb & H).
  apply bind_ok in H as (v & Hv & H).
  injection H as <-. cbn [variance betas] in *.
  destruct vt as [v0 |].
  - destruct (v0 =? "fixed_small")%string.
    + rewrite fixed_small_branch in Hv. injection Hv as <-.
      now rewrite fixed_small_table_length.
    + destruct (v0 =? "fixed_large")%string; [| discriminate].
      injection Hv as <-. now rewrite length_map.
  - unfold Np.zeros in Hv. destruct (N <? 0)%Z; [discriminate |].
    injection Hv as <-. apply repeat_length.
Qed.

(** All four tables of a constructed scheduler have [num_timesteps]
    entries. *)
Lemma init_lengths (N : Z) (bmin bmax : R) (sched : string)
    (clip_flag : bool) (vt : option string) (s : DiscreteScheduler) :
  init N bmin bmax sched clip_flag vt = Ok s ->
  (0 <= N)%Z /\
  Z.of_nat (length (betas s)) = N /\ Z.of_nat (length (alphas s)) = N /\
  Z.of_nat (length (alphas_cumprod s)) = N /\
  Z.of_nat (length (variance s)) = N.
Proof.
  intros Hs.
  pose proof (init_variance_length _ _ _ _ _ _ _ Hs) as Hv.
  destruct (init_tables _ _ _ _ _ _ _ Hs) as (_ & _ & _ & Ha & Hc & Hlen).
  assert (H0 : (0 <= N)%Z).
  { revert Hs. unfold init. intros H.
    apply bind_ok in H as (ob & Hob & H).
    destruct (Z.ltb_spec N 0) as [Hneg | Hpos]; [| exact Hpos].
    exfalso. unfold Np.linspace in Hob.
    destruct (sched =? "linear")%string;
      [| destruct (sched =? "scaled_linear")%string].
    - destruct (Z.ltb_spec N 0); [discriminate | lia].
    - destruct (Z.ltb_spec N 0); [discriminate | lia].
    - apply bind_ok in H as (b & Hb & H).
      destruct (sched =? "trained")%string; [| discriminate].
      injection Hob as <-. discriminate. }
  rewrite Hc, cumprod_length, Ha, length_map, Hlen, Hv.
  repeat split; lia.
Qed.

(** A timestep outside [-num_timesteps, num_timesteps) stops [step] at
    its first table read. *)
Lemma step_outside (self : DiscreteScheduler) (e y : ndarray) (t : Z)
    (noise : option ndarray) :
  (Z.of_nat (length (alphas self)) <= t \/
   t < - Z.of_nat (length (alphas self)))%Z ->
  step self e y t noise = Raise IndexError.
Proof.
  intros H. unfold step. now rewrite getitem_outside.
Qed.

(** A negative timestep within [-num_timesteps, 0) is read from the end
    of the tables; [t > 0] is false, so the next cumulative product is 1
    and no stochastic term is added. *)
Lemma step_from_end (self : DiscreteScheduler) (e y : ndarray) (t : Z)
    (noise : option ndarray) (n : nat) :
  length (alphas self) = n -> length (betas self) = n ->
  length (alphas_cumprod self) = n ->
  (- Z.of_nat n <= t < 0)%Z ->
  wf e -> wf y -> shape e = shape y ->
  exists r,
    step self e y t noise = Ok r /\ shape r = shape y /\
    forall j, (j < size (shape y))%nat ->
      nth j (data r) 0 =
      step_entry (clip_sample self)
        (nth (Z.to_nat (t + Z.of_nat n)) (alphas self) 0)
        (nth (Z.to_nat (t + Z.of_nat n)) (betas self) 0)
        (nth (Z.to_nat (t + Z.of_nat n)) (alphas_cumprod self) 0)
        1 (nth j (data e) 0) (nth j (data y) 0).
Proof.
  intros Ha Hb Hc Ht Hwe Hwy Hs.
  assert (Hpos : (t >? 0)%Z = false) by lia.
  destruct (step_before_noise self e y t _ _ _ 1
              (getitem_from_end (alphas self) t ltac:(lia))
              (getitem_from_end (betas self) t ltac:(lia))
              (getitem_from_end (alphas_cumprod self) t ltac:(lia))
              ltac:(now rewrite Hpos) Hwe Hwy Hs noise)
    as (base & Hwb & Hsb & Hent & Hstep).
  rewrite Hpos in Hstep. rewrite Ha, Hb, Hc in Hent.
  exists base. auto.
Qed.

Lemma concrete_samples_wf : wf pred1 /\ wf sample1 /\ wf noise1.
Proof. repeat split. Qed.

(** C3 (the claim fails at [t = -1]).  On the constructed two-step
    scheduler, the timestep [-1], which lies outside [0, 2), is not
    rejected: [step] reads the last table entries and returns a sample. *)
Lemma step_accepts_negative_timestep :
  init 2 (1/4) (1/2) "linear" true None = Ok two_step_plain /\
  ~ (0 <= -1 < 2)%Z /\
  exists r, step two_step_plain pred1 sample1 (-1) None = Ok r /\
            step two_step_plain pred1 sample1 (-1) None <> Raise IndexError.
Proof.
  split; [exact init_two_step_plain |]. split; [lia |].
  destruct (step_from_end two_step_plain pred1 sample1 (-1) None 2)
    as (r & Hr & _); try reflexivity; try lia.
  exists r. split; [exact Hr |]. rewrite Hr. discriminate.
Qed.

(** C3 (amended).  On a constructed scheduler, [step] raises
    [IndexError] for every timestep [t >= num_timesteps] and every
    [t < -num_timesteps].  A timestep in [-num_timesteps, 0) is not
    rejected: for same-shaped operands [step] returns the sample computed
    from the table entries at [t + num_timesteps], with 1 as the next
    cumulative product and without stochastic term. *)
Theorem step_timestep_bounds
    (N : Z) (bmin bmax : R) (sched : string) (clip_flag : bool)
    (vt : option string) (self : DiscreteScheduler)
    (e y : ndarray) (t : Z) (noise : option ndarray) :
  init N bmin bmax sched clip_flag vt = Ok self ->
  ((N <= t \/ t < - N)%Z -> step self e y t noise = Raise IndexError) /\
  ((- N <= t < 0)%Z -> wf e -> wf y -> shape e = shape y ->
   exists r,
     step self e y t noise = Ok r /\ shape r = shape y /\
     forall j, (j < size (shape y))%nat ->
       nth j (data r) 0 =
       step_entry (clip_sample self)
         (nth (Z.to_nat (t + N)) (alphas self) 0)
         (nth (Z.to_nat (t + N)) (betas self) 0)
         (nth (Z.to_nat (t + N)) (alphas_cumprod self) 0)
         1 (nth j (data e) 0) (nth j (data y) 0)).
Proof.
  intros Hs.
  destruct (init_lengths _ _ _ _ _ _ _ Hs) as (H0 & Hb & Ha & Hc & _).
  split.
  - intros Ht. apply step_outside. lia.
  - intros Ht Hwe Hwy Hsh.
    destruct (step_from_end self e y t noise (Z.to_nat N))
      as (r & Hr & Hsr & Hent); try assumption; try lia.
    rewrite Z2Nat.id in Hent by assumption. eauto.
Qed.

Lemma step_timestep_bounds_witness :
  step two_step_plain pred1 sample1 2 (Some noise1) = Raise IndexError.
Proof.
  apply (step_timestep_bounds 2 (1/4) (1/2) "linear" true None two_step_plain
           pred1 sample1 2 (Some noise1) init_two_step_plain).
  lia.
Defined.

(** C4.  At [t = 0] the result of [step] does not depend on whether a
    noise array is supplied: the stochastic term is never added. *)
Theorem step_terminal_ignores_noise
    (self : DiscreteScheduler) (e y noise : ndarray) :
  step self e y 0 (Some noise) = step self e y 0 None.
Proof. reflexivity. Qed.

(** C7.  On a constructed scheduler, for [0 <= t < num_timesteps] and
    same-shaped operands (the noise too, where it is used), [step] returns
    an array of the shape of the noisy sample whose every element is
    [cleanCoeff * predClean + noisyCoeff * noisySample], plus
    [variance[t] * noise] exactly when [t > 0] and noise is supplied;
    [predClean] is [(noisySample - sqrt(1 - ac) * noisePrediction) / sqrt(ac)],
    clamped to [-1, 1] when [clip_sample] is set; the next cumulative
    product is [alphas_cumprod[t-1]] for [t > 0] and 1 for [t = 0]. *)
Theorem step_formula
    (N : Z) (bmin bmax : R) (sched : string) (clip_flag : bool)
    (vt : option string) (self : DiscreteScheduler)
    (e y : ndarray) (t : Z) (noise : option ndarray) :
  init N bmin bmax sched clip_flag vt = Ok self ->
  (0 <= t < N)%Z ->
  wf e -> wf y -> shape e = shape y ->
  match noise with
  | Some n => (t > 0)%Z -> wf n /\ shape n = shape y
  | None => True
  end ->
  let i := Z.to_nat t in
  let alpha := nth i (alphas self) 0 in
  let beta := nth i (betas self) 0 in
  let ac := nth i (alphas_cumprod self) 0 in
  let acn := if (t >? 0)%Z then nth (i - 1) (alphas_cumprod self) 0 else 1 in
  let cleanCoeff := sqrt acn * beta / (1 - ac) in
  let noisyCoeff := sqrt alpha * (1 - acn) / (1 - ac) in
  exists r,
    step self e y t noise = Ok r /\ shape r = shape y /\
    forall j, (j < size (shape y))%nat ->
      let raw := (nth j (data y) 0 - sqrt (1 - ac) * nth j (data e) 0) / sqrt ac in
      exists predClean,
        (if clip_flag then clamped (-1) 1 raw predClean else predClean = raw) /\
        nth j (data r) 0 =
        match noise with
        | Some n =>
            if (t >? 0)%Z
            then cleanCoeff * predClean + noisyCoeff * nth j (data y) 0
                 + nth i (variance self) 0 * nth j (data n) 0
            else cleanCoeff * predClean + noisyCoeff * nth j (data y) 0
        | None => cleanCoeff * predClean + noisyCoeff * nth j (data y) 0
        end.
Proof.
  intros Hs Ht Hwe Hwy Hsh Hn i alpha beta ac acn cleanCoeff noisyCoeff.
  destruct (init_lengths _ _ _ _ _ _ _ Hs) as (H0 & Hb & Ha & Hc & Hv).
  destruct (init_tables _ _ _ _ _ _ _ Hs) as (_ & Hclip & _).
  assert (Hacn : (if (t >? 0)%Z
                  then Np.getitem (alphas_cumprod self) (t - 1)
                  else Ok 1) = Ok acn).
  { unfold acn. destruct (Z.gtb_spec t 0); [| reflexivity].
    rewrite getitem_in_range by lia. do 2 f_equal. unfold i. lia. }
  destruct (step_before_noise self e y t alpha beta ac acn
              (getitem_in_range (alphas self) t ltac:(lia))
              (getitem_in_range (betas self) t ltac:(lia))
              (getitem_in_range (alphas_cumprod self) t ltac:(lia))
              Hacn Hwe Hwy Hsh noise)
    as (base & Hwb & Hsb & Hent & Hstep).
  rewrite Hclip in Hent.
  assert (Hpc : forall j, (j < size (shape y))%nat ->
    let raw := (nth j (data y) 0 - sqrt (1 - ac) * nth j (data e) 0) / sqrt ac in
    exists predClean,
      (if clip_flag then clamped (-1) 1 raw predClean else predClean = raw) /\
      nth j (data base) 0 = cleanCoeff * predClean + noisyCoeff * nth j (data y) 0).
  { intros j Hj raw. rewrite (Hent j Hj). unfold step_entry. fold raw.
    destruct clip_flag.
    - exists (Rmin (Rmax raw (-1)) 1). split; [apply clip_clamps | reflexivity].
    - exists raw. split; reflexivity. }
  destruct (Z.gtb_spec t 0) as [Hpos | Hzero].
  - destruct noise as [n |].
    + destruct (Hn ltac:(lia)) as [Hwn Hsn].
      rewrite (getitem_in_range (variance self) t) in Hstep by lia.
      cbn [bind] in Hstep.
      rewrite iadd_same_shape in Hstep;
        [| assumption | now apply amap_wf | cbn [amap shape]; congruence].
      eexists. split; [exact Hstep |]. split; [exact Hsb |].
      intros j Hj raw. destruct (Hpc j Hj) as (p & Hp & Hbase).
      exists p. split; [exact Hp |]. cbn [data amap].
      assert (Hlb : length (data base) = size (shape y))
        by (rewrite <- Hsb; exact Hwb).
      assert (Hln : length (data n) = size (shape y))
        by (rewrite <- Hsn; exact Hwn).
      rewrite map2_nth by (rewrite ?length_map; lia).
      rewrite (nth_map_in (Rmult _) _ _ _ 0) by lia.
      now rewrite Hbase.
    + exists base. split; [exact Hstep |]. split; [exact Hsb |]. exact Hpc.
  - exists base. split; [exact Hstep |]. split; [exact Hsb |].
    intros j Hj raw. destruct (Hpc j Hj) as (p & Hp & Hbase).
    exists p. split; [exact Hp |]. now destruct noise.
Qed.

Lemma step_formula_witness :
  exists r, step two_step_small pred1 sample1 1 (Some noise1) = Ok r /\
            shape r = [1%nat].
Proof.
  destruct (step_formula 2 (1/4) (1/2) "linear" true (Some "fixed_small"%string)
              two_step_small pred1 sample1 1 (Some noise1)
              init_two_step_small ltac:(lia)
              (proj1 concrete_samples_wf)
              (proj1 (proj2 concrete_samples_wf)) eq_refl
              (fun _ => conj (proj2 (proj2 concrete_samples_wf)) eq_refl))
    as (r & Hr & Hs & _).
  exists r. split; [exact Hr | exact Hs].
Defined.

(** ** Integer-array indexing *)

Lemma take_in_range (a : list R) (ts : list Z) :
  Forall (fun t => (0 <= t < Z.of_nat (length a))%Z) ts ->
  Np.take a ts = Ok (map (fun t => nth (Z.to_nat t) a 0) ts).
Proof.
  induction 1 as [| t ts Ht _ IH]; simpl; [reflexivity |].
  now rewrite getitem_in_range, IH by assumption.
Qed.

Lemma take_accepts (a : list R) (ts : list Z) :
  Forall (fun t => (- Z.of_nat (length a) <= t < Z.of_nat (length a))%Z) ts ->
  exists vs, Np.take a ts = Ok vs /\ length vs = length ts.
Proof.
  induction 1 as [| t ts Ht _ (vs & IH & Hlen)]; simpl; [eauto |].
  destruct (getitem_accepts a t Ht) as [x ->]. rewrite IH. simpl.
  eexists; split; [reflexivity |]. simpl; congruence.
Qed.

Lemma take_outside (a : list R) (ts : list Z) :
  Exists (fun t => (Z.of_nat (length a) <= t \/ t < - Z.of_nat (length a))%Z) ts ->
  Np.take a ts = Raise IndexError.
Proof.
  induction 1 as [t ts Ht | t ts _ IH]; simpl.
  - rewrite getitem_outside by exact Ht. reflexivity.
  - rewrite IH. destruct (Np.getitem a t) as [x | e] eqn:E; [reflexivity |].
    unfold Np.getitem in E.
    destruct (_ && _) in E; [discriminate |].
    destruct (_ && _) in E; [discriminate |].
    injection E as <-. reflexivity.
Qed.

(** ** Broadcasting one value per batch row *)

Lemma bdim_one_l (x : nat) : bdim 1 x = Some x.
Proof.
  unfold bdim. destruct (Nat.eqb_spec 1 x); [now subst | reflexivity].
Qed.

Lemma bshape_rev_ones (l a b : list nat) :
  bshape_rev (repeat 1%nat (length l) ++ a) (l ++ b) =
  option_map (app l) (bshape_rev a b).
Proof.
  induction l as [| x l IH]; simpl.
  - now destruct (bshape_rev a b).
  - rewrite bdim_one_l, IH. now destruct (bshape_rev a b).
Qed.

Lemma broadcast_shapes_column (k B : nat) (tr : list nat) :
  broadcast_shapes (k :: repeat 1%nat (length tr)) (B :: tr) =
  option_map (fun d => d :: tr) (bdim k B).
Proof.
  unfold broadcast_shapes. simpl rev. rewrite rev_repeat, <- (length_rev tr).
  rewrite bshape_rev_ones. simpl.
  destruct (bdim k B); simpl; [| reflexivity].
  now rewrite rev_app_distr, rev_involutive.
Qed.

Lemma size_ones (m : nat) : size (repeat 1%nat m) = 1%nat.
Proof. induction m; simpl; [reflexivity | lia]. Qed.

Lemma concat_repeat_repeat (v : R) (p n : nat) :
  concat (repeat (repeat v p) n) = repeat v (n * p).
Proof.
  induction n as [| n IH]; simpl; [reflexivity |].
  now rewrite IH, repeat_app.
Qed.

(** A single value viewed at any shape fills it. *)
Lemma expand_scalar (tr : list nat) (v : R) :
  expand tr (repeat 1%nat (length tr)) [v] = repeat v (size tr).
Proof.
  induction tr as [| n tr IH]; [reflexivity |].
  cbn [length repeat expand]. rewrite size_ones.
  destruct (Nat.eqb_spec 1 n) as [<- | Hn].
  - cbn [chunks firstn flat_map]. rewrite app_nil_r, IH.
    f_equal. change (size (1%nat :: tr)) with (1 * size tr)%nat. lia.
  - rewrite IH, concat_repeat_repeat. reflexivity.
Qed.

Lemma chunks_singletons (vs : list R) :
  chunks 1 (length vs) vs = map (fun v => [v]) vs.
Proof.
  induction vs as [| v vs IH]; simpl; [reflexivity |]. now rewrite IH.
Qed.

(** A column of one value per row viewed at the shape of the batch
    repeats each value over its row. *)
Lemma expand_column (tr : list nat) (vs : list R) :
  expand (length vs :: tr) (length vs :: repeat 1%nat (length tr)) vs =
  flat_map (fun v => repeat v (size tr)) vs.
Proof.
  simpl. rewrite Nat.eqb_refl, size_ones, chunks_singletons.
  rewrite !flat_map_concat_map, map_map. f_equal.
  apply map_ext. intros v. apply expand_scalar.
Qed.

Lemma rows_length (p : nat) (vs : list R) :
  length (flat_map (fun v => repeat v p) vs) = (length vs * p)%nat.
Proof.
  apply flat_map_constant_length. intros; apply repeat_length.
Qed.

Lemma rows_nth (p : nat) (vs : list R) (b j : nat) :
  (b < length vs)%nat -> (j < p)%nat ->
  nth (b * p + j) (flat_map (fun v => repeat v p) vs) 0 = nth b vs 0.
Proof.
  revert b; induction vs as [| v vs IH]; intros b Hb Hj; simpl in *; [lia |].
  destruct b as [| b].
  - rewrite app_nth1 by (rewrite repeat_length; lia).
    apply nth_repeat_lt. exact Hj.
  - rewrite app_nth2 by (rewrite repeat_length; lia).
    rewrite repeat_length.
    replace (S b * p + j - p)%nat with (b * p + j)%nat by lia.
    apply IH; lia.
Qed.

(** The product of a column with a batch of the same number of rows. *)
Lemma binop_column (f : R -> R -> R) (vs : list R) (a : ndarray)
    (tr : list nat) :
  wf a -> shape a = length vs :: tr ->
  binop f (mkArray (length vs :: repeat 1%nat (length tr)) vs) a =
  Ok (mkArray (shape a)
        (Np.map2 f (flat_map (fun v => repeat v (size tr)) vs) (data a))).
Proof.
  intros Ha Hs.
  assert (Hbt : broadcast_to (length vs :: tr) a = data a)
    by (rewrite <- Hs; now apply broadcast_to_own_shape).
  unfold binop. cbn [shape]. rewrite Hs.
  rewrite broadcast_shapes_column, bdim_refl. cbn [option_map].
  rewrite Hbt. unfold broadcast_to. cbn [shape data length].
  replace (pad (S (length tr)) (length vs :: repeat 1%nat (length tr)))
    with (length vs :: repeat 1%nat (length tr))
    by (unfold pad; simpl; now rewrite repeat_length, Nat.sub_diag).
  now rewrite expand_column.
Qed.

(** ** Forward noising *)

(** A column built by [match_shape] against a batch, after elementwise
    maps, multiplies each row of a batch of as many rows by its value. *)
Lemma binop_matched_column (vs : list R) (k : nat) (c a : ndarray)
    (tr : list nat) :
  length vs = k -> length (shape c) = S (length tr) ->
  wf a -> shape a = k :: tr ->
  binop Rmult (mkArray (k :: repeat 1%nat (length (shape c) - 1)) vs) a =
  Ok (mkArray (shape a)
        (Np.map2 Rmult (flat_map (fun v => repeat v (size tr)) vs) (data a))).
Proof.
  intros <- Hc Ha Hs. rewrite Hc.
  replace (S (length tr) - 1)%nat with (length tr) by lia.
  now apply binop_column.
Qed.

Lemma add_noise_rows (self : DiscreteScheduler) (clean noise : ndarray)
    (ts : list Z) (acs : list R) (tr : list nat) :
  Np.take (alphas_cumprod self) ts = Ok acs ->
  wf clean -> wf noise ->
  shape clean = length acs :: tr -> shape noise = shape clean ->
  exists r,
    add_noise self clean noise ts = Ok r /\ shape r = shape clean /\
    forall b j, (b < length acs)%nat -> (j < size tr)%nat ->
      let k := (b * size tr + j)%nat in
      nth k (data r) 0 =
      sqrt (nth b acs 0) * nth k (data clean) 0 +
      sqrt (1 - nth b acs 0) * nth k (data noise) 0.
Proof.
  intros Htake Hwc Hwn Hsc Hsn.
  assert (Hrank : length (shape clean) = S (length tr)) by (now rewrite Hsc).
  assert (Hlc : length (data clean) = (length acs * size tr)%nat)
    by (unfold wf in Hwc; now rewrite Hwc, Hsc).
  assert (Hln : length (data noise) = (length acs * size tr)%nat)
    by (unfold wf in Hwn; now rewrite Hwn, Hsn, Hsc).
  unfold add_noise. rewrite Htake. cbn [bind].
  unfold asqrt, amap, match_shape. cbn [shape data].
  rewrite (binop_matched_column _ (length acs) clean clean tr);
    [| now rewrite length_map | assumption | assumption | assumption].
  cbn [bind].
  rewrite (binop_matched_column _ (length acs) clean noise tr);
    [| now rewrite !length_map | assumption | assumption | congruence].
  cbn [bind].
  rewrite binop_same_shape; cbn [shape data].
  2:{ unfold wf; cbn [shape data].
      rewrite map2_length, rows_length, length_map, Hlc, Hsc. simpl. lia. }
  2:{ unfold wf; cbn [shape data].
      rewrite map2_length, rows_length, !length_map, Hln, Hsn, Hsc. simpl. lia. }
  2:{ now symmetry. }
  eexists. split; [reflexivity |]. split; [reflexivity |].
  intros b j Hb Hj. set (k := (b * size tr + j)%nat). cbn [data].
  assert (Hk : (k < length acs * size tr)%nat) by (unfold k; nia).
  rewrite map2_nth
    by (rewrite map2_length, rows_length, ?length_map; lia).
  rewrite !map2_nth by (rewrite ?rows_length, ?length_map; lia).
  unfold k. rewrite !rows_nth by (rewrite ?length_map; lia).
  rewrite (nth_map_in sqrt _ _ _ 0) by lia.
  rewrite (nth_map_in sqrt _ _ _ 0) by (rewrite length_map; lia).
  now rewrite (nth_map_in (fun v => 1 - v) _ _ _ 0) by lia.
Qed.

(** C8.  On a constructed scheduler, for a batch [clean_samples] of
    shape [(B, ...)], a [noise] of the same shape and [B] timesteps in
    [0, num_timesteps), [add_noise] returns an array of the shape of
    [clean_samples] in which every element of row [b] is
    [sqrt(ac) * clean + sqrt(1 - ac) * noise] with
    [ac = alphas_cumprod[timesteps[b]]], the same for the whole row. *)
Theorem add_noise_formula
    (N : Z) (bmin bmax : R) (sched : string) (clip_flag : bool)
    (vt : option string) (self : DiscreteScheduler)
    (clean noise : ndarray) (ts : list Z) (B : nat) (tr : list nat) :
  init N bmin bmax sched clip_flag vt = Ok self ->
  wf clean -> wf noise ->
  shape clean = B :: tr -> shape noise = shape clean ->
  length ts = B ->
  Forall (fun t => (0 <= t < N)%Z) ts ->
  exists r,
    add_noise self clean noise ts = Ok r /\ shape r = shape clean /\
    forall b j, (b < B)%nat -> (j < size tr)%nat ->
      let ac := nth (Z.to_nat (nth b ts 0%Z)) (alphas_cumprod self) 0 in
      let k := (b * size tr + j)%nat in
      nth k (data r) 0 =
      sqrt ac * nth k (data clean) 0 + sqrt (1 - ac) * nth k (data noise) 0.
Proof.
  intros Hs Hwc Hwn Hsc Hsn Hlen Hts.
  destruct (init_lengths _ _ _ _ _ _ _ Hs) as (_ & _ & _ & Hc & _).
  set (acs := map (fun t => nth (Z.to_nat t) (alphas_cumprod self) 0) ts).
  assert (Htake : Np.take (alphas_cumprod self) ts = Ok acs)
    by (apply take_in_range; now rewrite Hc).
  assert (Hla : length acs = B) by (unfold acs; now rewrite length_map).
  destruct (add_noise_rows self clean noise ts acs tr Htake Hwc Hwn)
    as (r & Hr & Hsr & Hent); [now rewrite Hla | assumption |].
  exists r. split; [exact Hr |]. split; [exact Hsr |].
  intros b j Hb Hj ac k.
  pose proof (Hent b j ltac:(lia) Hj) as E. cbv zeta in E.
  unfold k. rewrite E. unfold acs, ac.
  now rewrite (nth_map_in _ ts b 0 0%Z) by lia.
Qed.

Lemma add_noise_formula_witness :
  exists r, add_noise two_step_plain clean2 noise2 [0%Z; 1%Z] = Ok r /\
            shape r = [2%nat].
Proof.
  destruct (add_noise_formula 2 (1/4) (1/2) "linear" true None two_step_plain
              clean2 noise2 [0%Z; 1%Z] 2 [] init_two_step_plain
              eq_refl eq_refl eq_refl eq_refl eq_refl)
    as (r & Hr & Hs & _).
  - repeat constructor; lia.
  - exists r. split; [exact Hr | exact Hs].
Defined.

(** ** Failures of forward noising *)

Lemma bdim_distinct (x y : nat) :
  x <> y -> x <> 1%nat -> y <> 1%nat -> bdim x y = None.
Proof.
  intros Hxy Hx Hy. unfold bdim.
  destruct (Nat.eqb_spec x y); [contradiction |].
  destruct (Nat.eqb_spec x 1); [contradiction |].
  destruct (Nat.eqb_spec y 1); [contradiction | reflexivity].
Qed.

Lemma bdim_none (x y : nat) :
  bdim x y = None -> x <> y /\ x <> 1%nat /\ y <> 1%nat.
Proof.
  unfold bdim.
  destruct (Nat.eqb_spec x y); [discriminate |].
  destruct (Nat.eqb_spec x 1); [discriminate |].
  destruct (Nat.eqb_spec y 1); [discriminate | auto].
Qed.

Lemma bdim_some (z x d : nat) :
  bdim z x = Some d -> x <> 1%nat -> d = x.
Proof.
  unfold bdim.
  destruct (Nat.eqb_spec z x); [intros [= <-]; congruence |].
  destruct (Nat.eqb_spec z 1); [intros [= <-]; reflexivity |].
  destruct (Nat.eqb_spec x 1); [contradiction | discriminate].
Qed.

(** Two shapes that do not broadcast with each other still do not after
    each has been broadcast with a third one. *)
Lemma bshape_rev_incompatible (c : list nat) :
  forall n m s1 s2,
    bshape_rev c n = None ->
    bshape_rev m c = Some s1 -> bshape_rev m n = Some s2 ->
    bshape_rev s1 s2 = None.
Proof.
  induction c as [| x c IH]; intros n m s1 s2 Hcn H1 H2.
  - discriminate.
  - destruct n as [| y n]; [discriminate |].
    destruct m as [| z m].
    + simpl in H1, H2. injection H1 as <-. injection H2 as <-. exact Hcn.
    + simpl in Hcn, H1, H2.
      destruct (bdim z x) as [d1 |] eqn:E1; [| discriminate].
      destruct (bshape_rev m c) as [s1' |] eqn:F1; [| discriminate].
      destruct (bdim z y) as [d2 |] eqn:E2; [| discriminate].
      destruct (bshape_rev m n) as [s2' |] eqn:F2; [| discriminate].
      injection H1 as <-. injection H2 as <-. simpl.
      destruct (bdim x y) as [d |] eqn:E.
      * destruct (bshape_rev c n) eqn:G; [discriminate |].
        rewrite (IH n m s1' s2' G F1 F2). now destruct (bdim d1 d2).
      * apply bdim_none in E as (Hxy & Hx & Hy).
        apply bdim_some in E1; [| assumption].
        apply bdim_some in E2; [| assumption].
        subst d1 d2. now rewrite bdim_distinct.
Qed.

Lemma broadcast_shapes_incompatible (c n m s1 s2 : list nat) :
  broadcast_shapes c n = None ->
  broadcast_shapes m c = Some s1 -> broadcast_shapes m n = Some s2 ->
  broadcast_shapes s1 s2 = None.
Proof.
  unfold broadcast_shapes. intros Hcn H1 H2.
  destruct (bshape_rev (rev c) (rev n)) eqn:G; [discriminate |].
  destruct (bshape_rev (rev m) (rev c)) as [r1 |] eqn:F1; [| discriminate].
  destruct (bshape_rev (rev m) (rev n)) as [r2 |] eqn:F2; [| discriminate].
  injection H1 as <-. injection H2 as <-. rewrite !rev_involutive.
  now rewrite (bshape_rev_incompatible _ _ _ _ _ G F1 F2).
Qed.

(** C9 (the claim fails at these calls).  On the constructed two-step
    scheduler [add_noise] returns a result for the timestep [-1], for a
    noise of shape [(1,)] against clean samples of shape [(2,)], and for
    one timestep against a batch of two. *)
Lemma add_noise_accepts_rejected_calls :
  init 2 (1/4) (1/2) "linear" true None = Ok two_step_plain /\
  (exists r, add_noise two_step_plain clean2 noise2 [(-1)%Z; 0%Z] = Ok r) /\
  (shape clean2 <> shape noise1 /\
   exists r, add_noise two_step_plain clean2 noise1 [0%Z; 1%Z] = Ok r) /\
  (length [1%Z] <> 2%nat /\
   exists r, add_noise two_step_plain clean2 noise2 [1%Z] = Ok r).
Proof.
  split; [exact init_two_step_plain |].
  split; [| split; split]; try discriminate;
    unfold add_noise; simpl; eexists; reflexivity.
Qed.

(** C9 (amended).  On a constructed scheduler, [add_noise] raises
    [IndexError] when some timestep [t] has [t >= num_timesteps] or
    [t < -num_timesteps].  When every timestep lies in
    [-num_timesteps, num_timesteps) it raises [ValueError] if the shapes
    of [clean_samples] and [noise] do not broadcast with each other, and
    if the number of timesteps and the batch dimension differ and neither
    is 1. *)
Theorem add_noise_failures
    (N : Z) (bmin bmax : R) (sched : string) (clip_flag : bool)
    (vt : option string) (self : DiscreteScheduler)
    (clean noise : ndarray) (ts : list Z) :
  init N bmin bmax sched clip_flag vt = Ok self ->
  (Exists (fun t => (N <= t \/ t < - N)%Z) ts ->
   add_noise self clean noise ts = Raise IndexError) /\
  (Forall (fun t => (- N <= t < N)%Z) ts ->
   broadcast_shapes (shape clean) (shape noise) = None ->
   add_noise self clean noise ts = Raise ValueError) /\
  (Forall (fun t => (- N <= t < N)%Z) ts ->
   forall B tr, shape clean = B :: tr ->
     length ts <> B -> length ts <> 1%nat -> B <> 1%nat ->
     add_noise self clean noise ts = Raise ValueError).
Proof.
  intros Hs.
  destruct (init_lengths _ _ _ _ _ _ _ Hs) as (_ & _ & _ & Hc & _).
  split; [| split].
  - intros Hex. unfold add_noise. rewrite take_outside; [reflexivity |].
    now rewrite Hc.
  - intros Hall Hcn.
    destruct (take_accepts (alphas_cumprod self) ts) as (acs & Htake & _);
      [now rewrite Hc |].
    unfold add_noise. rewrite Htake. cbn [bind].
    set (m := shape (match_shape acs clean)).
    unfold binop at 1. cbn [asqrt amap shape]. fold m.
    destruct (broadcast_shapes m (shape clean)) as [s1 |] eqn:E1;
      [| reflexivity].
    cbn [bind]. unfold binop at 1. cbn [asqrt amap shape]. fold m.
    destruct (broadcast_shapes m (shape noise)) as [s2 |] eqn:E2;
      [| reflexivity].
    cbn [bind]. unfold binop. cbn [shape].
    now rewrite (broadcast_shapes_incompatible _ _ _ _ _ Hcn E1 E2).
  - intros Hall B tr Hsc Hk1 Hk2 HB.
    destruct (take_accepts (alphas_cumprod self) ts) as (acs & Htake & Hlen);
      [now rewrite Hc |].
    unfold add_noise. rewrite Htake. cbn [bind].
    unfold binop at 1. cbn [asqrt amap match_shape shape].
    rewrite Hsc. cbn [length].
    replace (S (length tr) - 1)%nat with (length tr) by lia.
    rewrite broadcast_shapes_column, bdim_distinct by congruence.
    reflexivity.
Qed.

Lemma add_noise_failures_witness :
  add_noise two_step_plain clean2 noise2 [0%Z; 2%Z] = Raise IndexError.
Proof.
  apply (add_noise_failures 2 (1/4) (1/2) "linear" true None two_step_plain
           clean2 noise2 [0%Z; 2%Z] init_two_step_plain).
  apply Exists_cons_tl, Exists_cons_hd. lia.
Defined.

(** ** The one-dimensional rule is the general rule at rank one *)

Lemma map2_repeat_l (f : R -> R -> R) (x : R) (b : list R) :
  Np.map2 f (repeat x (length b)) b = map (f x) b.
Proof. induction b as [| y b IH]; simpl; [reflexivity | now rewrite IH]. Qed.

Lemma map2_repeat_r (f : R -> R -> R) (y : R) (a : list R) :
  Np.map2 f a (repeat y (length a)) = map (fun x => f x y) a.
Proof. induction a as [| x a IH]; simpl; [reflexivity | now rewrite IH]. Qed.

Lemma vector_wf (a : list R) : wf (vector a).
Proof. unfold wf, vector; simpl. lia. Qed.

Lemma broadcast_shapes_vectors (p q : nat) :
  broadcast_shapes [p] [q] = option_map (fun d => [d]) (bdim p q).
Proof. unfold broadcast_shapes; simpl. now destruct (bdim p q). Qed.

Lemma broadcast_to_stretch (x : R) (n : nat) :
  n <> 1%nat -> broadcast_to [n] (vector [x]) = repeat x n.
Proof.
  intros Hn. unfold broadcast_to, vector, pad. cbn [shape data length].
  cbn [Nat.sub repeat app expand].
  destruct (Nat.eqb_spec 1 n); [congruence |].
  symmetry. apply repeat_to_concat.
Qed.

Lemma binop1_agrees_with_binop (f : R -> R -> R) (a b : list R) :
  binop f (vector a) (vector b) = (l <- Np.binop1 f a b ;; Ok (vector l)).
Proof.
  assert (Ha : broadcast_to [length a] (vector a) = a)
    by (apply (broadcast_to_own_shape (vector a)), vector_wf).
  assert (Hb : broadcast_to [length b] (vector b) = b)
    by (apply (broadcast_to_own_shape (vector b)), vector_wf).
  unfold binop. cbn [vector shape]. rewrite broadcast_shapes_vectors.
  unfold Np.binop1.
  destruct (Nat.eqb_spec (length a) (length b)) as [E | E].
  - rewrite bdim_refl' by exact E. cbn [option_map bind].
    rewrite Ha. rewrite E at 2. rewrite Hb.
    unfold vector. now rewrite map2_length, E, Nat.min_id.
  - destruct (Nat.eq_dec (length a) 1) as [A1 | A1].
    + destruct a as [| x [| x' a]]; try discriminate.
      cbn [length] in *. rewrite bdim_one_l. cbn [option_map bind].
      rewrite Hb, broadcast_to_stretch by congruence.
      rewrite map2_repeat_l. unfold vector. now rewrite length_map.
    + destruct (Nat.eq_dec (length b) 1) as [B1 | B1].
      * destruct b as [| y [| y' b]]; try discriminate.
        cbn [length] in *.
        replace (bdim (length a) 1) with (Some (length a))
          by (unfold bdim; destruct (Nat.eqb_spec (length a) 1);
              [contradiction | reflexivity]).
        cbn [option_map].
        rewrite Ha, broadcast_to_stretch by congruence.
        rewrite map2_repeat_r.
        destruct a as [| x [| x' a]];
          [reflexivity | exfalso; apply A1; reflexivity |].
        cbn [bind]. unfold vector. now rewrite length_map.
      * rewrite bdim_distinct by assumption. cbn [option_map].
        destruct a as [| x [| x' a]]; destruct b as [| y [| y' b]];
          try (exfalso; apply E; reflexivity);
          try (exfalso; apply A1; reflexivity);
          try (exfalso; apply B1; reflexivity); reflexivity.
Qed.

(** * Further properties of the constructor *)

(** X1.  A [beta_schedule] other than ["linear"], ["scaled_linear"] and
    ["trained"] makes the constructor raise [NotImplementedError],
    whatever the other arguments are. *)
Theorem unknown_schedule_not_implemented
    (N : Z) (bmin bmax : R) (sched : string) (clip_flag : bool)
    (vt : option string) :
  sched <> "linear"%string -> sched <> "scaled_linear"%string ->
  sched <> "trained"%string ->
  init N bmin bmax sched clip_flag vt = Raise NotImplementedError.
Proof.
  intros H1 H2 H3. unfold init.
  apply String.eqb_neq in H1, H2, H3. now rewrite H1, H2, H3.
Qed.

Lemma unknown_schedule_not_implemented_witness :
  init 1000 (1/10000) (1/50) "exotic" true None = Raise NotImplementedError.
Proof.
  apply unknown_schedule_not_implemented; discriminate.
Defined.

(** X2.  With an implemented schedule and a non-negative number of
    timesteps, a [variance_type] string other than ["fixed_small"] and
    ["fixed_large"] makes the constructor raise [NotImplementedError]. *)
Theorem unknown_variance_not_implemented
    (N : Z) (bmin bmax : R) (sched : string) (clip_flag : bool) (v : string) :
  (0 <= N)%Z -> known_schedule sched ->
  v <> "fixed_small"%string -> v <> "fixed_large"%string ->
  init N bmin bmax sched clip_flag (Some v) = Raise NotImplementedError.
Proof.
  intros HN Hs H1 H2. unfold init.
  apply String.eqb_neq in H1, H2. rewrite H1, H2.
  destruct Hs as [-> | ->]; cbn [String.eqb Ascii.eqb Bool.eqb].
  - destruct (linspace_ok bmin bmax N HN) as [l ->]. reflexivity.
  - destruct (linspace_ok (sqrt bmin) (sqrt bmax) N HN) as [l ->]. reflexivity.
Qed.

Lemma unknown_variance_not_implemented_witness :
  init 2 (1/4) (1/2) "linear" true (Some "learned"%string) =
  Raise NotImplementedError.
Proof.
  apply unknown_variance_not_implemented;
    [lia | left; reflexivity | discriminate | discriminate].
Defined.

(** X3.  A negative [num_timesteps] with the linear or the scaled linear
    schedule makes the constructor raise [ValueError] (from
    [np.linspace]), before the variance type is looked at. *)
Theorem negative_num_timesteps_value_error
    (N : Z) (bmin bmax : R) (sched : string) (clip_flag : bool)
    (vt : option string) :
  (N < 0)%Z -> known_schedule sched ->
  init N bmin bmax sched clip_flag vt = Raise ValueError.
Proof.
  intros HN Hs. unfold init, Np.linspace.
  destruct (Z.ltb_spec N 0); [| lia].
  destruct Hs as [-> | ->]; reflexivity.
Qed.

Lemma negative_num_timesteps_value_error_witness :
  init (-1) (1/4) (1/2) "scaled_linear" true (Some "exotic"%string) =
  Raise ValueError.
Proof.
  apply negative_num_timesteps_value_error; [lia | right; reflexivity].
Defined.

(** X4.  [num_timesteps = 0] is not rejected: for every implemented
    schedule and variance type the constructor returns a scheduler whose
    four tables are empty (in the [fixed_small] branch the one-element
    [alphas_cumprod_prev] broadcasts against the empty table). *)
Theorem zero_timesteps_empty_tables
    (bmin bmax : R) (sched : string) (clip_flag : bool) (vt : option string) :
  known_schedule sched -> known_variance vt ->
  init 0 bmin bmax sched clip_flag vt = Ok (mkScheduler 0 clip_flag vt [] [] [] []).
Proof.
  intros [-> | ->] [-> | [-> | ->]]; reflexivity.
Qed.

Lemma zero_timesteps_empty_tables_witness :
  init 0 (1/4) (1/2) "linear" false (Some "fixed_small"%string) =
  Ok (mkScheduler 0 false (Some "fixed_small"%string) [] [] [] []).
Proof.
  apply zero_timesteps_empty_tables;
    [left; reflexivity | right; left; reflexivity].
Defined.

(** X5.  A scheduler the constructor returns stores its arguments, was
    built from a non-negative [num_timesteps], and each of its four
    tables has exactly [num_timesteps] entries. *)
Theorem constructed_tables_have_num_timesteps_entries
    (N : Z) (bmin bmax : R) (sched : string) (clip_flag : bool)
    (vt : option string) (s : DiscreteScheduler) :
  init N bmin bmax sched clip_flag vt = Ok s ->
  (0 <= N)%Z /\ num_timesteps s = N /\ clip_sample s = clip_flag /\
  variance_type s = vt /\
  length (betas s) = Z.to_nat N /\ length (alphas s) = Z.to_nat N /\
  length (alphas_cumprod s) = Z.to_nat N /\ length (variance s) = Z.to_nat N.
Proof.
  intros Hs.
  destruct (init_lengths _ _ _ _ _ _ _ Hs) as (H0 & Hb & Ha & Hc & Hv).
  destruct (init_tables _ _ _ _ _ _ _ Hs) as (Hn & Hcl & Hvt & _).
  repeat split; try assumption; lia.
Qed.

Lemma constructed_tables_have_num_timesteps_entries_witness :
  length (betas two_step_small) = Z.to_nat 2 /\
  length (variance two_step_small) = Z.to_nat 2.
Proof.
  destruct (constructed_tables_have_num_timesteps_entries
              2 (1/4) (1/2) "linear" true (Some "fixed_small"%string)
              two_step_small init_two_step_small)
    as (_ & _ & _ & _ & Hb & _ & _ & Hv).
  split; assumption.
Defined.

(** ** The schedules in the unit interval *)

Lemma linspace_within (a b : R) (num : Z) (l : list R) (i : nat) :
  (1 <= num)%Z -> a <= b -> Np.linspace a b num = Ok l ->
  (i < Z.to_nat num)%nat -> a <= nth i l 0 <= b.
Proof.
  intros Hnum Hab Hl Hi.
  destruct (Z.eq_dec num 1) as [-> | Hne].
  - rewrite linspace_single in Hl. injection Hl as <-.
    destruct i as [| i]; [simpl; lra | simpl in Hi; lia].
  - rewrite (linspace_nth a b num l i) by (assumption || lia).
    assert (Hd : 0 < IZR (num - 1)) by (apply IZR_lt; lia).
    assert (Hi0 : 0 <= INR i) by apply pos_INR.
    assert (Hi1 : INR i <= IZR (num - 1)).
    { rewrite INR_IZR_INZ. apply IZR_le. lia. }
    assert (Hq : 0 <= (b - a) / IZR (num - 1)).
    { apply Rmult_le_pos; [lra |]. apply Rlt_le, Rinv_0_lt_compat, Hd. }
    assert (Hfull : IZR (num - 1) * ((b - a) / IZR (num - 1)) = b - a)
      by (field; lra).
    split; nra.
Qed.

Lemma linspace_nondecreasing (a b : R) (num : Z) (l : list R) (i : nat) :
  a <= b -> Np.linspace a b num = Ok l ->
  (S i < Z.to_nat num)%nat -> nth i l 0 <= nth (S i) l 0.
Proof.
  intros Hab Hl Hi.
  rewrite !(linspace_nth a b num l) by (assumption || lia).
  assert (Hd : 0 < IZR (num - 1)) by (apply IZR_lt; lia).
  assert (Hq : 0 <= (b - a) / IZR (num - 1)).
  { apply Rmult_le_pos; [lra |]. apply Rlt_le, Rinv_0_lt_compat, Hd. }
  rewrite S_INR. lra.
Qed.

Lemma init_scaled_linear_betas (N : Z) (bmin bmax : R) (clip_flag : bool)
    (vt : option string) (s : DiscreteScheduler) :
  init N bmin bmax "scaled_linear" clip_flag vt = Ok s ->
  exists l, Np.linspace (sqrt bmin) (sqrt bmax) N = Ok l /\
            betas s = map (fun x => x ^ 2) l.
Proof.
  unfold init. intros H.
  apply bind_ok in H as (ob & Hob & H).
  apply bind_ok in H as (b & Hb & H).
  apply bind_ok in H as (v & Hv & H).
  injection H as <-; simpl.
  simpl in Hob. apply bind_ok in Hob as (l & Hl & Hob). injection Hob as <-.
  injection Hb as <-. eauto.
Qed.

(** X6.  For a linear schedule with [num_timesteps >= 1] and
    [0 < beta_min < beta_max < 1], every beta lies between [beta_min] and
    [beta_max], and every alpha and every cumulative product lies between
    0 and 1. *)
Theorem linear_schedule_in_unit_interval
    (N : Z) (bmin bmax : R) (clip_flag : bool) (vt : option string)
    (s : DiscreteScheduler) (i : nat) :
  (1 <= N)%Z -> 0 < bmin -> bmin < bmax -> bmax < 1 ->
  init N bmin bmax "linear" clip_flag vt = Ok s ->
  (i < Z.to_nat N)%nat ->
  bmin <= nth i (betas s) 0 <= bmax /\
  0 <= nth i (alphas s) 0 <= 1 /\
  0 <= nth i (alphas_cumprod s) 0 <= 1.
Proof.
  intros HN H0 Hlt H1 Hs Hi.
  pose proof (init_linear_betas _ _ _ _ _ _ Hs) as Hl.
  destruct (init_tables _ _ _ _ _ _ _ Hs) as (_ & _ & _ & Ha & Hc & Hlen).
  assert (Hall : Forall unit_open (betas s)).
  { apply Forall_nth. intros k d Hk. rewrite (nth_indep _ d 0) by exact Hk.
    destruct (linspace_within bmin bmax N (betas s) k) as [L U];
      try assumption; try lra; try lia.
    unfold unit_open. lra. }
  assert (Hua : Forall unit_open (alphas s))
    by (rewrite Ha; now apply complement_unit_open).
  assert (Hla : length (alphas s) = Z.to_nat N)
    by (rewrite Ha, length_map; exact Hlen).
  assert (Hac : unit_open (nth i (alphas_cumprod s) 0))
    by (rewrite Hc; apply cumprod_unit_open; [assumption | lia]).
  assert (Hal : unit_open (nth i (alphas s) 0))
    by (apply Forall_nth; [assumption | lia]).
  unfold unit_open in *.
  split; [apply (linspace_within bmin bmax N); assumption || lra |].
  split; lra.
Qed.

Lemma linear_schedule_in_unit_interval_witness :
  1/4 <= nth 1 (betas two_step_plain) 0 <= 1/2 /\
  0 <= nth 1 (alphas two_step_plain) 0 <= 1 /\
  0 <= nth 1 (alphas_cumprod two_step_plain) 0 <= 1.
Proof.
  apply (linear_schedule_in_unit_interval 2 (1/4) (1/2) true None).
  - lia.
  - lra.
  - lra.
  - lra.
  - exact init_two_step_plain.
  - simpl. lia.
Defined.

(** X7.  For a scaled linear schedule with [num_timesteps >= 2] and
    [0 <= beta_min <= beta_max], beta [i] is the square of the [i]-th of
    [num_timesteps] evenly spaced values from [sqrt(beta_min)] to
    [sqrt(beta_max)]; the first beta is [beta_min], the last one is
    [beta_max], and the betas are non-decreasing. *)
Theorem scaled_linear_betas
    (N : Z) (bmin bmax : R) (clip_flag : bool) (vt : option string)
    (s : DiscreteScheduler) :
  (2 <= N)%Z -> 0 <= bmin -> bmin <= bmax ->
  init N bmin bmax "scaled_linear" clip_flag vt = Ok s ->
  (forall i, (i < Z.to_nat N)%nat ->
     nth i (betas s) 0 =
     (sqrt bmin + INR i * ((sqrt bmax - sqrt bmin) / IZR (N - 1))) ^ 2) /\
  nth 0 (betas s) 0 = bmin /\
  nth (Z.to_nat N - 1) (betas s) 0 = bmax /\
  (forall i, (S i < Z.to_nat N)%nat ->
     nth i (betas s) 0 <= nth (S i) (betas s) 0).
Proof.
  intros HN H0 Hle Hs.
  destruct (init_scaled_linear_betas _ _ _ _ _ _ Hs) as (l & Hl & Hb).
  pose proof (linspace_length _ _ _ _ Hl) as Hlen.
  assert (Hsq : sqrt bmin <= sqrt bmax) by (apply sqrt_le_1_alt; exact Hle).
  assert (Hnth : forall i, (i < Z.to_nat N)%nat ->
            nth i (betas s) 0 = nth i l 0 ^ 2).
  { intros i Hi. rewrite Hb.
    apply (nth_map_in (fun x => x ^ 2) l i 0 0). lia. }
  split; [| split; [| split]].
  - intros i Hi. rewrite (Hnth i Hi).
    now rewrite (linspace_nth (sqrt bmin) (sqrt bmax) N l i) by (assumption || lia).
  - rewrite Hnth by lia.
    rewrite (linspace_nth (sqrt bmin) (sqrt bmax) N l 0) by (assumption || lia). simpl INR.
    rewrite Rmult_0_l, Rplus_0_r. now apply pow2_sqrt.
  - rewrite Hnth by lia.
    rewrite (linspace_nth (sqrt bmin) (sqrt bmax) N l) by (assumption || lia).
    replace (INR (Z.to_nat N - 1)) with (IZR (N - 1))
      by (rewrite INR_IZR_INZ; f_equal; lia).
    replace (sqrt bmin + IZR (N - 1) * ((sqrt bmax - sqrt bmin) / IZR (N - 1)))
      with (sqrt bmax) by (field; apply not_0_IZR; lia).
    apply pow2_sqrt. lra.
  - intros i Hi. rewrite !Hnth by lia.
    apply pow_incr. split.
    + destruct (linspace_within (sqrt bmin) (sqrt bmax) N l i ltac:(lia) Hsq Hl ltac:(lia)) as [L _].
      pose proof (sqrt_pos bmin). lra.
    + now apply (linspace_nondecreasing (sqrt bmin) (sqrt bmax) N).
Qed.

Lemma scaled_linear_betas_witness :
  exists s, init 2 (1/4) (1/2) "scaled_linear" true None = Ok s /\
            nth 0 (betas s) 0 = 1/4 /\ nth (Z.to_nat 2 - 1) (betas s) 0 = 1/2.
Proof.
  destruct (init_succeeds 2 (1/4) (1/2) "scaled_linear" true None)
    as [s Hs]; [lia | right; reflexivity | left; reflexivity |].
  exists s. split; [exact Hs |].
  destruct (scaled_linear_betas 2 (1/4) (1/2) true None s) as (_ & H0 & H1 & _);
    [lia | lra | lra | exact Hs |].
  split; assumption.
Defined.

(** ** The variance table and the cumulative product *)

Lemma init_plain_variance (N : Z) (bmin bmax : R) (sched : string)
    (clip_flag : bool) (s : DiscreteScheduler) :
  init N bmin bmax sched clip_flag None = Ok s ->
  variance s = repeat 0 (Z.to_nat N).
Proof.
  unfold init. intros H.
  apply bind_ok in H as (ob & Hob & H).
  apply bind_ok in H as (b & Hb & H).
  apply bind_ok in H as (v & Hv & H).
  injection H as <-. cbn [variance].
  unfold Np.zeros in Hv. destruct (N <? 0)%Z; [discriminate |].
  now injection Hv.
Qed.



Lemma firstn_succ_nth (l : list R) (n : nat) :
  (n < length l)%nat -> firstn (S n) l = firstn n l ++ [nth n l 0].
Proof.
  revert n; induction l as [| x l IH]; intros n Hn; simpl in Hn; [lia |].
  destruct n as [| n]; [reflexivity |].
  cbn [firstn nth app]. f_equal. rewrite <- IH by lia. reflexivity.
Qed.

Lemma product_snoc (l : list R) (x : R) :
  fold_right Rmult 1 (l ++ [x]) = fold_right Rmult 1 l * x.
Proof.
  induction l as [| y l IH]; simpl; [ring |]. rewrite IH. ring.
Qed.

Lemma cumprod_is_product (a : list R) (i : nat) :
  (i < length a)%nat ->
  nth i (Np.cumprod a) 0 = fold_right Rmult 1 (firstn (S i) a).
Proof.
  induction i as [| i IH]; intros Hi.
  - rewrite cumprod_head. destruct a; simpl in *; [lia | ring].
  - rewrite cumprod_step by exact Hi. rewrite IH by lia.
    rewrite (firstn_succ_nth a (S i)) by exact Hi.
    now rewrite product_snoc.
Qed.

(** X10.  Entry [i] of [alphas_cumprod] of a constructed scheduler is
    the product of the alphas at the indices 0 to [i]. *)
Theorem alphas_cumprod_is_product_of_alphas
    (N : Z) (bmin bmax : R) (sched : string) (clip_flag : bool)
    (vt : option string) (s : DiscreteScheduler) (i : nat) :
  init N bmin bmax sched clip_flag vt = Ok s ->
  (i < Z.to_nat N)%nat ->
  nth i (alphas_cumprod s) 0 = fold_right Rmult 1 (firstn (S i) (alphas s)).
Proof.
  intros Hs Hi.
  destruct (init_tables _ _ _ _ _ _ _ Hs) as (_ & _ & _ & Ha & Hc & Hlen).
  rewrite Hc. apply cumprod_is_product. rewrite Ha, length_map. lia.
Qed.

Lemma alphas_cumprod_is_product_of_alphas_witness :
  nth 1 (alphas_cumprod two_step_plain) 0 =
  fold_right Rmult 1 (firstn 2 (alphas two_step_plain)).
Proof.
  apply (alphas_cumprod_is_product_of_alphas 2 (1/4) (1/2) "linear" true None).
  - exact init_two_step_plain.
  - simpl. lia.
Defined.

(** * Further properties of the reverse step *)

(** The call with noise is the call without noise followed by the
    stochastic update. *)
Lemma step_with_noise (self : DiscreteScheduler) (e y n : ndarray) (t : Z) :
  step self e y t (Some n) =
  (base <- step self e y t None ;;
   if (t >? 0)%Z then
     v <- Np.getitem (variance self) t ;; iadd base (amap (Rmult v) n)
   else Ok base).
Proof.
  unfold step.
  destruct (Np.getitem (alphas self) t); [| reflexivity]. cbn [bind].
  destruct (Np.getitem (betas self) t); [| reflexivity]. cbn [bind].
  destruct (Np.getitem (alphas_cumprod self) t); [| reflexivity]. cbn [bind].
  destruct (t >? 0)%Z.
  - destruct (Np.getitem (alphas_cumprod self) (t - 1)); [| reflexivity].
    cbn [bind]. destruct (binop Rminus y _); [| reflexivity]. cbn [bind].
    destruct (binop Rplus _ _); reflexivity.
  - cbn [bind]. destruct (binop Rminus y _); [| reflexivity]. cbn [bind].
    destruct (binop Rplus _ _); reflexivity.
Qed.

Lemma step_without_noise_value (self : DiscreteScheduler) (e y : ndarray)
    (t : Z) (alpha beta ac acn : R) :
  Np.getitem (alphas self) t = Ok alpha ->
  Np.getitem (betas self) t = Ok beta ->
  Np.getitem (alphas_cumprod self) t = Ok ac ->
  (if (t >? 0)%Z then Np.getitem (alphas_cumprod self) (t - 1) else Ok 1) = Ok acn ->
  wf e -> wf y -> shape e = shape y ->
  exists base,
    step self e y t None = Ok base /\ wf base /\ shape base = shape y /\
    forall j, (j < size (shape y))%nat ->
      nth j (data base) 0 =
      step_entry (clip_sample self) alpha beta ac acn
        (nth j (data e) 0) (nth j (data y) 0).
Proof.
  intros H1 H2 H3 H4 Hwe Hwy Hs.
  destruct (step_before_noise self e y t alpha beta ac acn
              H1 H2 H3 H4 Hwe Hwy Hs None)
    as (base & Hwb & Hsb & Hent & Hstep).
  exists base. split; [| auto].
  rewrite Hstep. now destruct (t >? 0)%Z.
Qed.

Lemma map2_plus_zero (b n : list R) :
  length b = length n -> Np.map2 Rplus b (map (Rmult 0) n) = b.
Proof.
  revert n; induction b as [| x b IH]; intros [| z n] H; simpl in *;
    try discriminate; [reflexivity |].
  rewrite IH by congruence. f_equal. ring.
Qed.

Lemma getitem_zeros (n : nat) (t : Z) :
  (0 <= t < Z.of_nat n)%Z -> Np.getitem (repeat 0 n) t = Ok 0.
Proof.
  intros Ht. rewrite getitem_in_range by (rewrite repeat_length; lia).
  now rewrite nth_repeat.
Qed.

(** X11.  Without a variance type (the table of zeros), supplying a
    noise array of the shape of the samples does not change what [step]
    returns, at any timestep: the scheduler is deterministic. *)
Theorem step_without_variance_ignores_noise
    (N : Z) (bmin bmax : R) (sched : string) (clip_flag : bool)
    (self : DiscreteScheduler) (e y n : ndarray) (t : Z) :
  init N bmin bmax sched clip_flag None = Ok self ->
  wf e -> wf y -> wf n -> shape e = shape y -> shape n = shape y ->
  step self e y t (Some n) = step self e y t None.
Proof.
  intros Hs Hwe Hwy Hwn Hse Hsn.
  destruct (init_lengths _ _ _ _ _ _ _ Hs) as (H0 & Hb & Ha & Hc & Hv).
  destruct (Z.gtb_spec t 0) as [Hpos | Hle].
  - destruct (Z.lt_ge_cases t N) as [Hin | Hout].
    + destruct (step_without_noise_value self e y t _ _ _
                  (nth (Z.to_nat (t - 1)) (alphas_cumprod self) 0)
                  (getitem_in_range (alphas self) t ltac:(lia))
                  (getitem_in_range (betas self) t ltac:(lia))
                  (getitem_in_range (alphas_cumprod self) t ltac:(lia)))
        as (base & Hbase & Hwb & Hsb & _); try assumption.
      { destruct (Z.gtb_spec t 0); [| lia].
        apply getitem_in_range. lia. }
      rewrite step_with_noise, Hbase. cbn [bind].
      destruct (Z.gtb_spec t 0); [| lia].
      rewrite (init_plain_variance _ _ _ _ _ _ Hs).
      rewrite getitem_zeros by lia. cbn [bind].
      rewrite iadd_same_shape;
        [| assumption | now apply amap_wf | cbn [amap shape]; congruence].
      cbn [amap data].
      rewrite map2_plus_zero.
      * now destruct base.
      * unfold wf in Hwb, Hwn. rewrite Hwb, Hwn. congruence.
    + rewrite !step_outside by lia. reflexivity.
  - rewrite step_with_noise.
    destruct (Z.gtb_spec t 0); [lia |].
    now destruct (step self e y t None).
Qed.

Lemma step_without_variance_ignores_noise_witness :
  step two_step_plain pred1 sample1 1 (Some noise1) =
  step two_step_plain pred1 sample1 1 None.
Proof.
  apply (step_without_variance_ignores_noise 2 (1/4) (1/2) "linear" true
           two_step_plain pred1 sample1 noise1 1 init_two_step_plain);
    reflexivity.
Defined.

Lemma shape_eqb_eq (s1 s2 : list nat) : shape_eqb s1 s2 = true -> s1 = s2.
Proof.
  revert s2; induction s1 as [| x s1 IH]; intros [| z s2]; simpl;
    try discriminate; [reflexivity |].
  intros H. apply andb_prop in H as [Hx Hs].
  apply Nat.eqb_eq in Hx. f_equal; auto.
Qed.

Lemma next_cumprod_accepts (a : list R) (t : Z) :
  (- Z.of_nat (length a) <= t < Z.of_nat (length a))%Z ->
  exists acn,
    (if (t >? 0)%Z then Np.getitem a (t - 1) else Ok 1) = Ok acn.
Proof.
  intros Ht. destruct (Z.gtb_spec t 0); [| eauto].
  apply getitem_accepts. lia.
Qed.

(** X13.  When the timestep is accepted (it lies in
    [-num_timesteps, num_timesteps)) and the shapes of the noise
    prediction and of the noisy sample do not broadcast with each other,
    [step] raises [ValueError], with or without noise. *)
Theorem step_incompatible_shapes_value_error
    (N : Z) (bmin bmax : R) (sched : string) (clip_flag : bool)
    (vt : option string) (self : DiscreteScheduler)
    (e y : ndarray) (t : Z) (noise : option ndarray) :
  init N bmin bmax sched clip_flag vt = Ok self ->
  (- N <= t < N)%Z ->
  broadcast_shapes (shape y) (shape e) = None ->
  step self e y t noise = Raise ValueError.
Proof.
  intros Hs Ht Hbs.
  destruct (init_lengths _ _ _ _ _ _ _ Hs) as (H0 & Hb & Ha & Hc & Hv).
  destruct (getitem_accepts (alphas self) t ltac:(lia)) as [alpha Halpha].
  destruct (getitem_accepts (betas self) t ltac:(lia)) as [beta Hbeta].
  destruct (getitem_accepts (alphas_cumprod self) t ltac:(lia)) as [ac Hac].
  destruct (next_cumprod_accepts (alphas_cumprod self) t ltac:(lia))
    as [acn Hacn].
  unfold step. rewrite Halpha, Hbeta, Hac, Hacn. cbn [bind].
  unfold binop at 1. cbn [amap shape]. now rewrite Hbs.
Qed.

Lemma step_incompatible_shapes_value_error_witness :
  step two_step_plain (mkArray [3%nat] [0; 0; 0]) clean2 1 None =
  Raise ValueError.
Proof.
  apply (step_incompatible_shapes_value_error 2 (1/4) (1/2) "linear" true None
           two_step_plain _ _ _ _ init_two_step_plain).
  - lia.
  - reflexivity.
Defined.

(** X14.  At an accepted timestep [t > 0], with well-shaped operands of
    rank at least one, a noise array whose shape does not broadcast to
    the shape of the samples makes [step] raise [ValueError]: the
    stochastic term is added in place. *)
Theorem step_noise_shape_value_error
    (N : Z) (bmin bmax : R) (sched : string) (clip_flag : bool)
    (vt : option string) (self : DiscreteScheduler)
    (e y n : ndarray) (t : Z) :
  init N bmin bmax sched clip_flag vt = Ok self ->
  (0 < t < N)%Z ->
  wf e -> wf y -> shape e = shape y -> shape y <> [] ->
  broadcast_shapes (shape y) (shape n) <> Some (shape y) ->
  step self e y t (Some n) = Raise ValueError.
Proof.
  intros Hs Ht Hwe Hwy Hsh Hrank Hbs.
  destruct (init_lengths _ _ _ _ _ _ _ Hs) as (H0 & Hb & Ha & Hc & Hv).
  destruct (step_without_noise_value self e y t _ _ _
              (nth (Z.to_nat (t - 1)) (alphas_cumprod self) 0)
              (getitem_in_range (alphas self) t ltac:(lia))
              (getitem_in_range (betas self) t ltac:(lia))
              (getitem_in_range (alphas_cumprod self) t ltac:(lia)))
    as (base & Hbase & Hwb & Hsb & _); try assumption.
  { destruct (Z.gtb_spec t 0); [| lia]. apply getitem_in_range. lia. }
  rewrite step_with_noise, Hbase. cbn [bind].
  destruct (Z.gtb_spec t 0); [| lia].
  rewrite (getitem_in_range (variance self) t) by lia. cbn [bind].
  unfold iadd, binop. cbn [amap shape]. rewrite Hsb.
  destruct (broadcast_shapes (shape y) (shape n)) as [s' |] eqn:E;
    [| reflexivity].
  cbn [bind shape].
  destruct (shape y) as [| d sy] eqn:Ey; [congruence |].
  destruct (shape_eqb s' (d :: sy)) eqn:Eq; [| reflexivity].
  apply shape_eqb_eq in Eq. congruence.
Qed.

Lemma step_noise_shape_value_error_witness :
  step two_step_small pred1 sample1 1 (Some noise2) = Raise ValueError.
Proof.
  apply (step_noise_shape_value_error 2 (1/4) (1/2) "linear" true
           (Some "fixed_small"%string) two_step_small pred1 sample1 noise2 1
           init_two_step_small).
  - lia.
  - reflexivity.
  - reflexivity.
  - reflexivity.
  - discriminate.
  - discriminate.
Defined.

(** * Further properties of forward noising *)

Lemma getitem_wrap (a : list R) (t : Z) :
  (- Z.of_nat (length a) <= t < Z.of_nat (length a))%Z ->
  Np.getitem a t =
  Np.getitem a (if (t <? 0)%Z then (t + Z.of_nat (length a))%Z else t).
Proof.
  intros Ht. destruct (Z.ltb_spec t 0); [| reflexivity].
  rewrite getitem_from_end, getitem_in_range by lia. reflexivity.
Qed.

Lemma take_wrap (a : list R) (ts : list Z) :
  Forall (fun t => (- Z.of_nat (length a) <= t < Z.of_nat (length a))%Z) ts ->
  Np.take a ts =
  Np.take a (map (fun t => if (t <? 0)%Z
                           then (t + Z.of_nat (length a))%Z else t) ts).
Proof.
  induction 1 as [| t ts Ht _ IH]; [reflexivity |].
  cbn [map Np.take]. now rewrite <- getitem_wrap, IH by exact Ht.
Qed.

(** X16.  On a constructed scheduler, a negative timestep in
    [-num_timesteps, 0) means to [add_noise] what the timestep
    [t + num_timesteps] means: replacing every negative timestep that way
    gives the same result. *)
Theorem add_noise_negative_timesteps_count_from_end
    (N : Z) (bmin bmax : R) (sched : string) (clip_flag : bool)
    (vt : option string) (self : DiscreteScheduler)
    (clean noise : ndarray) (ts : list Z) :
  init N bmin bmax sched clip_flag vt = Ok self ->
  Forall (fun t => (- N <= t < N)%Z) ts ->
  add_noise self clean noise ts =
  add_noise self clean noise
    (map (fun t => if (t <? 0)%Z then (t + N)%Z else t) ts).
Proof.
  intros Hs Hts.
  destruct (init_lengths _ _ _ _ _ _ _ Hs) as (_ & _ & _ & Hc & _).
  unfold add_noise. rewrite <- Hc in *. now rewrite <- take_wrap.
Qed.

Lemma add_noise_negative_timesteps_count_from_end_witness :
  add_noise two_step_plain clean2 noise2 [(-1)%Z; 0%Z] =
  add_noise two_step_plain clean2 noise2 [1%Z; 0%Z].
Proof.
  apply (add_noise_negative_timesteps_count_from_end 2 (1/4) (1/2) "linear"
           true None two_step_plain clean2 noise2 [(-1)%Z; 0%Z]
           init_two_step_plain).
  repeat constructor; lia.
Defined.

(** X17.  On a constructed scheduler whose betas lie in (0,1), the two
    weights [sqrt(ac)] and [sqrt(1 - ac)] that [add_noise] gives to the
    clean sample and to the noise at a timestep lie between 0 and 1, and
    their squares add up to 1. *)
Theorem add_noise_weights_square_to_one
    (N : Z) (bmin bmax : R) (sched : string) (clip_flag : bool)
    (vt : option string) (self : DiscreteScheduler) (t : Z) :
  init N bmin bmax sched clip_flag vt = Ok self ->
  Forall unit_open (betas self) ->
  (0 <= t < N)%Z ->
  exists ac,
    Np.getitem (alphas_cumprod self) t = Ok ac /\
    0 <= sqrt ac <= 1 /\ 0 <= sqrt (1 - ac) <= 1 /\
    sqrt ac * sqrt ac + sqrt (1 - ac) * sqrt (1 - ac) = 1.
Proof.
  intros Hs Hb Ht.
  destruct (init_lengths _ _ _ _ _ _ _ Hs) as (_ & Hlb & Hla & Hc & _).
  destruct (init_tables _ _ _ _ _ _ _ Hs) as (_ & _ & _ & Ha & Hcp & _).
  exists (nth (Z.to_nat t) (alphas_cumprod self) 0).
  split; [apply getitem_in_range; lia |].
  assert (Hu : unit_open (nth (Z.to_nat t) (alphas_cumprod self) 0)).
  { rewrite Hcp. apply cumprod_unit_open.
    - rewrite Ha. now apply complement_unit_open.
    - lia. }
  unfold unit_open in Hu. set (ac := nth _ _ _) in *.
  assert (H1 : forall x, 0 <= x <= 1 -> 0 <= sqrt x <= 1).
  { intros x Hx. split; [apply sqrt_pos |].
    rewrite <- sqrt_1. apply sqrt_le_1_alt. lra. }
  split; [apply H1; lra |]. split; [apply H1; lra |].
  rewrite !sqrt_sqrt by lra. ring.
Qed.

Lemma add_noise_weights_square_to_one_witness :
  exists ac,
    Np.getitem (alphas_cumprod two_step_plain) 1 = Ok ac /\
    0 <= sqrt ac <= 1 /\ 0 <= sqrt (1 - ac) <= 1 /\
    sqrt ac * sqrt ac + sqrt (1 - ac) * sqrt (1 - ac) = 1.
Proof.
  apply (add_noise_weights_square_to_one 2 (1/4) (1/2) "linear" true None).
  - exact init_two_step_plain.
  - exact two_step_betas_unit_open.
  - lia.
Defined.

(** A one-row column stretches over every row of a batch. *)
Lemma binop_single_column (f : R -> R -> R) (v : R) (a : ndarray)
    (B : nat) (tr : list nat) :
  wf a -> shape a = B :: tr ->
  binop f (mkArray (1%nat :: repeat 1%nat (length tr)) [v]) a =
  Ok (mkArray (shape a) (map (f v) (data a))).
Proof.
  intros Ha Hs.
  assert (Hbt : broadcast_to (B :: tr) a = data a)
    by (rewrite <- Hs; now apply broadcast_to_own_shape).
  assert (Hla : length (data a) = (B * size tr)%nat)
    by (unfold wf in Ha; now rewrite Ha, Hs).
  unfold binop. cbn [shape]. rewrite Hs.
  rewrite broadcast_shapes_column, bdim_one_l. cbn [option_map].
  rewrite Hbt. unfold broadcast_to. cbn [shape data length].
  replace (pad (S (length tr)) (1%nat :: repeat 1%nat (length tr)))
    with (1%nat :: repeat 1%nat (length tr))
    by (unfold pad; simpl; now rewrite repeat_length, Nat.sub_diag).
  assert (He : expand (B :: tr) (1%nat :: repeat 1%nat (length tr)) [v] =
               repeat v (B * size tr)).
  { cbn [expand]. rewrite size_ones.
    destruct (Nat.eqb_spec 1 B) as [<- | HB].
    - cbn [chunks firstn flat_map]. rewrite app_nil_r, expand_scalar.
      f_equal. lia.
    - now rewrite expand_scalar, concat_repeat_repeat. }
  rewrite He, <- Hla. now rewrite map2_repeat_l.
Qed.

(** X18.  One timestep for a whole batch: with a single timestep in
    [0, num_timesteps) and a batch of any number of rows, [add_noise]
    noises every element of every row with the cumulative product at that
    timestep. *)
Theorem add_noise_single_timestep_covers_batch
    (N : Z) (bmin bmax : R) (sched : string) (clip_flag : bool)
    (vt : option string) (self : DiscreteScheduler)
    (clean noise : ndarray) (t : Z) (B : nat) (tr : list nat) :
  init N bmin bmax sched clip_flag vt = Ok self ->
  (0 <= t < N)%Z ->
  wf clean -> wf noise ->
  shape clean = B :: tr -> shape noise = shape clean ->
  let ac := nth (Z.to_nat t) (alphas_cumprod self) 0 in
  exists r,
    add_noise self clean noise [t] = Ok r /\ shape r = shape clean /\
    forall k, (k < size (shape clean))%nat ->
      nth k (data r) 0 =
      sqrt ac * nth k (data clean) 0 + sqrt (1 - ac) * nth k (data noise) 0.
Proof.
  intros Hs Ht Hwc Hwn Hsc Hsn ac.
  destruct (init_lengths _ _ _ _ _ _ _ Hs) as (_ & _ & _ & Hc & _).
  assert (Hlc : length (data clean) = size (shape clean)) by exact Hwc.
  assert (Hln : length (data noise) = size (shape clean))
    by (rewrite <- Hsn; exact Hwn).
  unfold add_noise. cbn [Np.take].
  rewrite getitem_in_range by lia. cbn [bind]. fold ac.
  unfold asqrt, amap, match_shape. cbn [shape data map length].
  rewrite Hsc. cbn [length].
  replace (S (length tr) - 1)%nat with (length tr) by lia.
  rewrite <- Hsc.
  rewrite (binop_single_column Rmult _ clean B tr) by assumption.
  cbn [bind].
  rewrite (binop_single_column Rmult _ noise B tr) by (assumption || congruence).
  cbn [bind].
  rewrite binop_same_shape; cbn [shape data].
  - eexists. split; [reflexivity |]. split; [reflexivity |].
    intros k Hk. cbn [data].
    rewrite map2_nth by (rewrite length_map; lia).
    now rewrite !(nth_map_in (Rmult _) _ _ _ 0) by lia.
  - unfold wf; cbn [shape data]. now rewrite length_map.
  - unfold wf; cbn [shape data]. now rewrite length_map.
  - now symmetry.
Qed.

Lemma add_noise_single_timestep_covers_batch_witness :
  exists r, add_noise two_step_plain clean2 noise2 [1%Z] = Ok r /\
            shape r = [2%nat].
Proof.
  destruct (add_noise_single_timestep_covers_batch 2 (1/4) (1/2) "linear" true
              None two_step_plain clean2 noise2 1 2 [] init_two_step_plain)
    as (r & Hr & Hs & _); try reflexivity.
  - lia.
  - exists r. split; [exact Hr | exact Hs].
Defined.
